(** * permchain.pregel: the step loop, the planner and the engine facade

    A shallow embedding of [src/permchain/pregel/__init__.py].  Python
    objects become Rocq data, exceptions become the [Raise] case of
    [result], the registry that the planner mutates in place is threaded
    through explicitly, and the calls that the planner makes on channels
    and on the logger are recorded in a list of [event]s. *)

From Stdlib Require Import String List ZArith Bool Lia Permutation.
Import ListNotations.

Set Warnings "-register-all".

Open Scope string_scope.
Open Scope list_scope.

(** ** Python values *)

(** A [str] object.  Python separates the identity of an object ([is])
    from its contents ([==], [hash]); both are used by the source, so both
    are kept.  One object has one text; two objects may share a text. *)
Record pystr := PyStr { oid : nat; text : string }.

(** [a is b] *)
Definition str_is (a b : pystr) : bool := Nat.eqb (oid a) (oid b).

(** [a == b] *)
Definition str_eq (a b : pystr) : bool := String.eqb (text a) (text b).

Inductive value :=
| VNone
| VInt (z : Z)
| VStr (s : pystr)
| VList (l : list value)
| VDict (d : list (value * value)).

Inductive exn :=
| EmptyChannelError
| KeyError (k : string)
| TypeError
| AttributeError
| TimeoutError (step : nat)
| ValueError (msg : string)
| NameError (name : string)
| UserError (msg : string).

Inductive result (A : Type) :=
| Ok (a : A)
| Raise (e : exn).
Arguments Ok {A} a.
Arguments Raise {A} e.

Definition bind {A B} (r : result A) (k : A -> result B) : result B :=
  match r with
  | Ok a => k a
  | Raise e => Raise e
  end.

Notation "'do' x <- r ; k" := (bind r (fun x => k))
  (at level 10, x name, r at level 100, k at level 200).

(** [try: body  except EmptyChannelError: handler] *)
Definition try_except_EmptyChannelError {A} (body : result A) (handler : result A)
  : result A :=
  match body with
  | Raise EmptyChannelError => handler
  | other => other
  end.

(** One-character strings are shared objects; they are identified by
    their code point, and the identities below 256 belong to them. *)
Definition char_str (c : Ascii.ascii) : pystr :=
  PyStr (Ascii.nat_of_ascii c) (String c EmptyString).

Fixpoint chars (s : string) : list value :=
  match s with
  | EmptyString => []
  | String c s' => VStr (char_str c) :: chars s'
  end.

(** [for v in val]: what iterating a value produces. *)
Definition py_iter (val : value) : result (list value) :=
  match val with
  | VList l => Ok l
  | VDict d => Ok (map fst d)
  | VStr s => Ok (chars (text s))
  | VNone | VInt _ => Raise TypeError
  end.

(** ** Channels *)

Inductive pytype :=
| TyAny
| TyInt
| TyStr
| TySeq (t : pytype).

(** Modelled from the spec: the [Channel] interface of
    [permchain.channels.base], which is not among the sources.  A channel
    is a stateful cell: [update] reduces a batch of writes into the state,
    [get] produces the current value or fails with [EmptyChannelError]
    (here: [chan_get] answers [None]); [chan_empty] is the state of a
    freshly instantiated channel; [UpdateType] and [ValueType] are its two
    type descriptors. *)
Record Channel := mkChannel {
  chan_state : Type;
  chan_empty : chan_state;
  state : chan_state;
  chan_update : chan_state -> list value -> chan_state;
  chan_get : chan_state -> option value;
  UpdateType : pytype;
  ValueType : pytype
}.

(** [channel.update(values)]: the object afterwards. *)
Definition update (c : Channel) (values : list value) : Channel :=
  mkChannel (chan_state c) (chan_empty c) (chan_update c (state c) values)
            (chan_update c) (chan_get c) (UpdateType c) (ValueType c).

(** [channel.get()] *)
Definition get (c : Channel) : result value :=
  match chan_get c (state c) with
  | Some v => Ok v
  | None => Raise EmptyChannelError
  end.

(** ** Dictionaries keyed by strings

    [Mapping[str, X]] as an association list in insertion order; keys are
    compared by text, as [hash] and [==] do. *)

Definition registry := list (string * Channel).

Fixpoint lookup {A} (k : string) (d : list (string * A)) : option A :=
  match d with
  | [] => None
  | (k', a) :: d' => if String.eqb k' k then Some a else lookup k d'
  end.

(** [chan in channels] *)
Definition contains {A} (d : list (string * A)) (k : string) : bool :=
  match lookup k d with
  | Some _ => true
  | None => false
  end.

(** [channels[chan]] *)
Definition getitem {A} (d : list (string * A)) (k : pystr) : result A :=
  match lookup (text k) d with
  | Some a => Ok a
  | None => Raise (KeyError (text k))
  end.

(** The registry after [channels[chan].update(vals)]: the object bound to
    [chan] has changed, the binding has not. *)
Fixpoint update_channel (channels : registry) (chan : string) (vals : list value)
  : registry :=
  match channels with
  | [] => []
  | (k, c) :: rest =>
      if String.eqb k chan then (k, update c vals) :: rest
      else (k, c) :: update_channel rest chan vals
  end.

(** [set[str]] *)
Definition mem (k : string) (s : list string) : bool :=
  existsb (String.eqb k) s.

Definition set_add (k : string) (s : list string) : list string :=
  if mem k s then s else s ++ [k].

(** ** Processes *)

Definition write := (pystr * value)%type.

(** What became of one task of a step: it returned after sending
    [writes], it raised, or it was still running when the step's timeout
    elapsed. *)
Inductive outcome :=
| Done (writes : list write)
| Failed (e : exn)
| Inflight.

(** [proc.invoke(input, config)] seen from the step loop: the task gets its
    input, the [read] function and the step number from the configuration,
    and everything it passes to [send] ends in the pending writes. *)
Definition behaviour := value -> (pystr -> result value) -> nat -> outcome.

Inductive Process :=
| PregelInvoke (channels : list (option pystr * pystr)) (run : behaviour)
| PregelBatch (channel : pystr) (key : option pystr) (run : behaviour).

Definition invoke_of (proc : Process) : behaviour :=
  match proc with
  | PregelInvoke _ run => run
  | PregelBatch _ _ run => run
  end.

Definition task := (Process * value)%type.

(** ** The planner *)

(** Calls observed on the collaborators of the planner. *)
Inductive event :=
| Update (chan : string) (vals : list value)
| Warning (msg : string).

(** [pending_writes_by_channel[chan].append(val)] on a [defaultdict(list)] *)
Fixpoint append_write (chan : pystr) (val : value)
    (by_channel : list (pystr * list value)) : list (pystr * list value) :=
  match by_channel with
  | [] => [(chan, [val])]
  | (k, vals) :: rest =>
      if str_eq k chan then (k, vals ++ [val]) :: rest
      else (k, vals) :: append_write chan val rest
  end.

Definition group_writes (pending_writes : list write)
  : list (pystr * list value) :=
  fold_left (fun by_channel w => append_write (fst w) (snd w) by_channel)
            pending_writes [].

Record applied := mkApplied {
  channels_after : registry;
  updated_channels : list string;
  events : list event
}.

Definition skip_message (chan : pystr) : string :=
  "Skipping write for channel " ++ text chan ++ " which has no readers".

(** The body of [for chan, vals in pending_writes_by_channel.items()] *)
Definition apply_group (st : applied) (g : pystr * list value) : applied :=
  let (chan, vals) := g in
  if contains (channels_after st) (text chan) then
    mkApplied (update_channel (channels_after st) (text chan) vals)
              (set_add (text chan) (updated_channels st))
              (events st ++ [Update (text chan) vals])
  else
    mkApplied (channels_after st) (updated_channels st)
              (events st ++ [Warning (skip_message chan)]).

Definition apply_writes (channels : registry) (pending_writes : list write)
  : applied :=
  fold_left apply_group (group_writes pending_writes)
            (mkApplied channels [] []).

(** Keys of an Invoke subscription: [None] or a string. *)
Definition key_eq (a b : option pystr) : bool :=
  match a, b with
  | None, None => true
  | Some x, Some y => str_eq x y
  | _, _ => false
  end.

Definition key_value (k : option pystr) : value :=
  match k with
  | None => VNone
  | Some s => VStr s
  end.

(** [d[k] = v] *)
Fixpoint dict_set (k : option pystr) (v : value)
    (d : list (option pystr * value)) : list (option pystr * value) :=
  match d with
  | [] => [(k, v)]
  | (k', v') :: d' =>
      if key_eq k' k then (k', v) :: d' else (k', v') :: dict_set k v d'
  end.

(** [val[None]] *)
Fixpoint dict_get_none (d : list (option pystr * value)) : result value :=
  match d with
  | [] => Raise (KeyError "None")
  | (None, v) :: _ => Ok v
  | (Some _, _) :: d' => dict_get_none d'
  end.

(** [{k: channels[chan].get() for k, chan in proc.channels.items()}] *)
Fixpoint read_subscriptions (channels : registry)
    (items : list (option pystr * pystr))
    (val : list (option pystr * value)) : result (list (option pystr * value)) :=
  match items with
  | [] => Ok val
  | (k, chan) :: rest =>
      do c <- getitem channels chan;
      do v <- get c;
      read_subscriptions channels rest (dict_set k v val)
  end.

(** [list(proc.channels.keys()) == [None]] *)
Definition keys_are_none (items : list (option pystr * pystr)) : bool :=
  match map fst items with
  | [None] => true
  | _ => false
  end.

Definition as_dict (val : list (option pystr * value)) : value :=
  VDict (map (fun kv => (key_value (fst kv), snd kv)) val).

(** The body of [for proc in processes]: [Ok None] is a process that adds
    nothing to [tasks] (the [if] was false, or [continue] was reached). *)
Definition prepare_task (channels : registry) (updated : list string)
    (proc : Process) : result (option task) :=
  match proc with
  | PregelInvoke subscribed _ =>
      if existsb (fun kc => mem (text (snd kc)) updated) subscribed then
        match read_subscriptions channels subscribed [] with
        | Raise EmptyChannelError => Ok None
        | Raise e => Raise e
        | Ok val =>
            if keys_are_none subscribed then
              do v <- dict_get_none val; Ok (Some (proc, v))
            else Ok (Some (proc, as_dict val))
        end
      else Ok None
  | PregelBatch channel key _ =>
      if mem (text channel) updated then
        do c <- getitem channels channel;
        do val <- get c;
        do val' <- match key with
                   | Some k =>
                       do elems <- py_iter val;
                       Ok (VList (map (fun v => VDict [(VStr k, v)]) elems))
                   | None => Ok val
                   end;
        Ok (Some (proc, val'))
      else Ok None
  end.

Fixpoint prepare_tasks (channels : registry) (updated : list string)
    (processes : list Process) (tasks : list task) : result (list task) :=
  match processes with
  | [] => Ok tasks
  | proc :: rest =>
      match prepare_task channels updated proc with
      | Raise e => Raise e
      | Ok None => prepare_tasks channels updated rest tasks
      | Ok (Some t) => prepare_tasks channels updated rest (tasks ++ [t])
      end
  end.

(** What a call of the planner leaves behind: the registry it mutated, the
    calls it made, and the task list it returned or the exception it
    raised. *)
Record planned := mkPlanned {
  registry_after : registry;
  trace : list event;
  next : result (list task)
}.

Definition _apply_writes_and_prepare_next_tasks (processes : list Process)
    (channels : registry) (pending_writes : list write) : planned :=
  let a := apply_writes channels pending_writes in
  mkPlanned (channels_after a) (events a)
            (prepare_tasks (channels_after a) (updated_channels a) processes []).

(** ** The engine *)

(** [str | Sequence[str]] *)
Inductive names :=
| Name (n : pystr)
| Names (ns : list pystr).

(** The per-step timeout is a wall-clock duration; what it does to a step
    is carried by the [Inflight] outcome of a task. *)
Record Pregel := mkPregel {
  channels : registry;
  chains : list Process;
  output : names;
  input : names
}.

Record RunnableConfig := mkConfig {
  recursion_limit : Z
}.

(** Modelled from the spec: [ChannelsManager] of [permchain.channels.base],
    which is not among the sources: the registry of a run holds one freshly
    instantiated channel for each declared name. *)
Definition fresh (c : Channel) : Channel :=
  mkChannel (chan_state c) (chan_empty c) (chan_empty c)
            (chan_update c) (chan_get c) (UpdateType c) (ValueType c).

Definition ChannelsManager (declared : registry) : registry :=
  map (fun kc => (fst kc, fresh (snd kc))) declared.

(** [k in names] for a sequence of strings *)
Definition name_in (k : pystr) (ns : list pystr) : bool :=
  existsb (str_eq k) ns.

(** [(k, v) for k, v in chunk.items() if k in self.input] *)
Definition chunk_writes (declared : list pystr) (chunk : value)
  : result (list write) :=
  match chunk with
  | VDict d =>
      Ok (flat_map (fun kv =>
                      match fst kv with
                      | VStr k => if name_in k declared then [(k, snd kv)] else []
                      | _ => []
                      end) d)
  | _ => Raise AttributeError
  end.

Fixpoint seed_mapping (declared : list pystr) (chunks : list value)
  : result (list write) :=
  match chunks with
  | [] => Ok []
  | chunk :: rest =>
      do ws <- chunk_writes declared chunk;
      do ws' <- seed_mapping declared rest;
      Ok (ws ++ ws')
  end.

(** The deque built from the driver input before the first planner call. *)
Definition seed_writes (self : Pregel) (chunks : list value)
  : result (list write) :=
  match input self with
  | Name n => Ok (map (fun chunk => (n, chunk)) chunks)
  | Names ns => seed_mapping ns chunks
  end.

(** The [read] closure of [_transform] *)
Definition read (channels : registry) (chan : pystr) : result value :=
  try_except_EmptyChannelError
    (do c <- getitem channels chan; get c)
    (Ok VNone).

(** What the runtime decides in a run, and the program does not: the order
    in which the writes of the concurrent tasks of a step reach the
    buffer, which of several failed tasks is the first to be popped from
    the set of finished ones, and the order in which a set of strings is
    iterated. *)
Record Runtime := mkRuntime {
  arrival : nat -> list (list write) -> list write;
  popped : nat -> list exn -> exn;
  iteration : list pystr -> list pystr
}.

Section Run.

Variable rt : Runtime.

Definition is_inflight (o : outcome) : bool :=
  match o with
  | Inflight => true
  | _ => false
  end.

(** The exceptions of the finished tasks that raised. *)
Fixpoint failures (outcomes : list outcome) : list exn :=
  match outcomes with
  | [] => []
  | Failed e :: rest => e :: failures rest
  | _ :: rest => failures rest
  end.

Definition writes_of (o : outcome) : list write :=
  match o with
  | Done ws => ws
  | _ => []
  end.

(** Fan-out and join of one step.  The tasks run concurrently on a frozen
    registry.  If some have failed, the exception of the one popped first
    is raised; if none has failed and one is still running, the step has
    timed out; otherwise the buffer holds the writes of the tasks in the
    order in which they arrived. *)
Definition run_tasks (channels : registry) (step : nat) (next_tasks : list task)
  : result (list write) :=
  let outcomes :=
    map (fun t => invoke_of (fst t) (snd t) (read channels) step) next_tasks in
  match failures outcomes with
  | exc :: others => Raise (popped rt step (exc :: others))
  | [] =>
      if existsb is_inflight outcomes then Raise (TimeoutError step)
      else Ok (arrival rt step (map writes_of outcomes))
  end.

(** The join of the cooperative flavour: [asyncio.wait] refuses an empty
    collection of tasks. *)
Definition arun_tasks (channels : registry) (step : nat) (next_tasks : list task)
  : result (list write) :=
  match next_tasks with
  | [] => Raise (ValueError "Set of Tasks/Futures is empty.")
  | _ :: _ => run_tasks channels step next_tasks
  end.

(** The elements of [{c for c, _ in pending_writes if c in self.output}]:
    the first object of each name, listed in order of first occurrence;
    the order in which the set is iterated is the runtime's. *)
Fixpoint updated_outputs (outs : list pystr) (pending_writes : list write)
    (seen : list pystr) : list pystr :=
  match pending_writes with
  | [] => seen
  | (c, _) :: rest =>
      if name_in c outs && negb (name_in c seen)
      then updated_outputs outs rest (seen ++ [c])
      else updated_outputs outs rest seen
  end.

(** [{chan: channels[chan].get() for chan in updated}] *)
Fixpoint read_outputs (channels : registry) (updated : list pystr)
  : result (list (value * value)) :=
  match updated with
  | [] => Ok []
  | chan :: rest =>
      do c <- getitem channels chan;
      do v <- get c;
      do d <- read_outputs channels rest;
      Ok ((VStr chan, v) :: d)
  end.

(** The output emission of a step: [Ok (Some v)] yields [v], [Ok None]
    yields nothing. *)
Definition step_output (self : Pregel) (channels : registry)
    (pending_writes : list write) : result (option value) :=
  match output self with
  | Name out =>
      if existsb (fun w => str_is (fst w) out) pending_writes then
        do c <- getitem channels out;
        do v <- get c;
        Ok (Some v)
      else Ok None
  | Names outs =>
      match updated_outputs outs pending_writes [] with
      | [] => Ok None
      | updated =>
          do d <- read_outputs channels (iteration rt updated);
          Ok (Some (VDict d))
      end
  end.

(** What a consumer that drains the generator observes. *)
Record run := mkRun {
  yielded : list value;
  steps : nat;
  finish : result unit
}.

Definition raised (exc : exn) : run := mkRun [] 1 (Raise exc).

Definition after_step (out : option value) (rest : run) : run :=
  mkRun (match out with Some v => v :: yielded rest | None => yielded rest end)
        (S (steps rest)) (finish rest).

(** The body of the step loop up to the [break] test: fan out and join,
    apply the writes and plan, compute what the step emits.  An exception
    in any of them ends the generator. *)
Definition run_step (self : Pregel) (step : nat) (channels : registry)
    (next_tasks : list task) : result (option value * registry * list task) :=
  do pending_writes <- run_tasks channels step next_tasks;
  let p := _apply_writes_and_prepare_next_tasks
             (chains self) channels pending_writes in
  do next_tasks' <- next p;
  do out <- step_output self (registry_after p) pending_writes;
  Ok (out, registry_after p, next_tasks').

(** [for step in range(config["recursion_limit"])]: [remaining] iterations
    are left and the next one is number [step]. *)
Fixpoint step_loop (self : Pregel) (remaining : nat) (step : nat)
    (channels : registry) (next_tasks : list task) : run :=
  match remaining with
  | O => mkRun [] 0 (Ok tt)
  | S remaining' =>
      match run_step self step channels next_tasks with
      | Raise exc => raised exc
      | Ok (out, channels', next_tasks') =>
          match next_tasks' with
          | [] => after_step out (mkRun [] 0 (Ok tt))
          | _ :: _ =>
              after_step out
                (step_loop self remaining' (S step) channels' next_tasks')
          end
      end
  end.

Definition _transform (self : Pregel) (input : list value)
    (config : RunnableConfig) : run :=
  let channels := ChannelsManager (channels self) in
  match seed_writes self input with
  | Raise exc => mkRun [] 0 (Raise exc)
  | Ok seed =>
      let p := _apply_writes_and_prepare_next_tasks (chains self) channels seed in
      match next p with
      | Raise exc => mkRun [] 0 (Raise exc)
      | Ok next_tasks =>
          step_loop self (Z.to_nat (recursion_limit config)) 0
                    (registry_after p) next_tasks
      end
  end.

(** [transform] hands [_transform] to the library's stream wrapper, which
    passes the chunks through. *)
Definition transform (self : Pregel) (input : list value)
    (config : RunnableConfig) : run :=
  _transform self input config.

Definition stream (self : Pregel) (input : value) (config : RunnableConfig)
  : run :=
  transform self [input] config.

(** [latest = None; for chunk in self.stream(...): latest = chunk] *)
Definition invoke (self : Pregel) (input : value) (config : RunnableConfig)
  : result value :=
  let chunks := stream self input config in
  let latest := fold_left (fun _ chunk => chunk) (yielded chunks) VNone in
  do _ <- finish chunks;
  Ok latest.

(** The body of the loop of [_atransform]: that of [_transform] with the
    cooperative join. *)
Definition arun_step (self : Pregel) (step : nat) (channels : registry)
    (next_tasks : list task) : result (option value * registry * list task) :=
  do pending_writes <- arun_tasks channels step next_tasks;
  let p := _apply_writes_and_prepare_next_tasks
             (chains self) channels pending_writes in
  do next_tasks' <- next p;
  do out <- step_output self (registry_after p) pending_writes;
  Ok (out, registry_after p, next_tasks').

Fixpoint astep_loop (self : Pregel) (remaining : nat) (step : nat)
    (channels : registry) (next_tasks : list task) : run :=
  match remaining with
  | O => mkRun [] 0 (Ok tt)
  | S remaining' =>
      match arun_step self step channels next_tasks with
      | Raise exc => raised exc
      | Ok (out, channels', next_tasks') =>
          match next_tasks' with
          | [] => after_step out (mkRun [] 0 (Ok tt))
          | _ :: _ =>
              after_step out
                (astep_loop self remaining' (S step) channels' next_tasks')
          end
      end
  end.

Definition _atransform (self : Pregel) (input : list value)
    (config : RunnableConfig) : run :=
  let channels := ChannelsManager (channels self) in
  match seed_writes self input with
  | Raise exc => mkRun [] 0 (Raise exc)
  | Ok seed =>
      let p := _apply_writes_and_prepare_next_tasks (chains self) channels seed in
      match next p with
      | Raise exc => mkRun [] 0 (Raise exc)
      | Ok next_tasks =>
          astep_loop self (Z.to_nat (recursion_limit config)) 0
                     (registry_after p) next_tasks
      end
  end.

Definition atransform (self : Pregel) (input : list value)
    (config : RunnableConfig) : run :=
  _atransform self input config.

Definition astream (self : Pregel) (input : value) (config : RunnableConfig)
  : run :=
  atransform self [input] config.

Definition ainvoke (self : Pregel) (input : value) (config : RunnableConfig)
  : result value :=
  let chunks := astream self input config in
  let latest := fold_left (fun _ chunk => chunk) (yielded chunks) VNone in
  do _ <- finish chunks;
  Ok latest.

(** ** Schemas *)

(** A field of a model made by [create_model]: the keyword that names it,
    its type and its default. *)
Record field := mkField {
  field_name : string;
  field_type : pytype;
  field_default : value
}.

(** [Inherited] stands for what the base class derives from [InputType]. *)
Inductive schema :=
| Inherited
| Model (name : string) (fields : list field).

(** What pydantic knows and this repository does not: which names an
    attribute of [BaseModel] already bears, which keywords [create_model]
    takes as its own parameters or as the root key instead of as field
    definitions, and what a call with such a keyword comes to. *)
Record Pydantic := mkPydantic {
  shadows_base_model : string -> bool;
  own_keyword : string -> bool;
  own_keyword_call : string -> list field -> result schema
}.

Variable lib : Pydantic.

(** [name.startswith('_')] *)
Definition underscored (name : string) : bool := String.prefix "_" name.

(** The fields that the model class keeps of the field definitions: a
    name with a leading underscore is ignored, a name that shadows an
    attribute of [BaseModel] is refused with [NameError]. *)
Fixpoint model_fields (field_definitions : list field) : result (list field) :=
  match field_definitions with
  | [] => Ok []
  | f :: rest =>
      if underscored (field_name f) then model_fields rest
      else if shadows_base_model lib (field_name f)
           then Raise (NameError (field_name f))
           else do fields <- model_fields rest; Ok (f :: fields)
  end.

(** [create_model(name, **field_definitions)] of pydantic v1 *)
Definition create_model (model_name : string) (field_definitions : list field)
  : result schema :=
  if existsb (fun f => own_keyword lib (field_name f)) field_definitions
  then own_keyword_call lib model_name field_definitions
  else do fields <- model_fields field_definitions;
       Ok (Model model_name fields).

(** [d[k] = (t, None)] while the dictionary of keyword arguments is built:
    a key that is already there keeps its place and takes the new value. *)
Fixpoint field_set (f : field) (fields : list field) : list field :=
  match fields with
  | [] => [f]
  | g :: rest =>
      if String.eqb (field_name g) (field_name f) then f :: rest
      else g :: field_set f rest
  end.

(** [{k: (self.channels[k].UpdateType, None) for k in ...}] *)
Fixpoint input_fields (channels : registry) (ks : list string)
    (fields : list field) : result (list field) :=
  match ks with
  | [] => Ok fields
  | k :: rest =>
      match lookup k channels with
      | Some c =>
          input_fields channels rest (field_set (mkField k (UpdateType c) VNone) fields)
      | None => Raise (KeyError k)
      end
  end.

Definition get_input_schema (self : Pregel) : result schema :=
  match input self with
  | Name _ => Ok Inherited
  | Names ns =>
      let ks := match ns with
                | [] => map fst (channels self)
                | _ :: _ => map text ns
                end in
      do field_definitions <- input_fields (channels self) ks [];
      create_model "PregelInput" field_definitions
  end.

(** [{k: (self.channels[k].ValueType, None) for k in self.output}] *)
Fixpoint output_fields (channels : registry) (ks : list string)
    (fields : list field) : result (list field) :=
  match ks with
  | [] => Ok fields
  | k :: rest =>
      match lookup k channels with
      | Some c =>
          output_fields channels rest (field_set (mkField k (ValueType c) VNone) fields)
      | None => Raise (KeyError k)
      end
  end.

Definition get_output_schema (self : Pregel) : result schema :=
  match output self with
  | Name _ => Ok Inherited
  | Names ns =>
      do field_definitions <- output_fields (channels self) (map text ns) [];
      create_model "PregelOutput" field_definitions
  end.

(** ** Declaring processes *)

(** [d[chan] = chan] while [{chan: chan for chan in channels}] is built: a
    name that is already a key keeps the key and rebinds it. *)
Fixpoint subscription_set (chan : pystr) (d : list (option pystr * pystr))
  : list (option pystr * pystr) :=
  match d with
  | [] => [(Some chan, chan)]
  | (k, c) :: d' =>
      if key_eq k (Some chan) then (k, chan) :: d'
      else (k, c) :: subscription_set chan d'
  end.

(** The [channels] of the process that [subscribe_to] returns. *)
Definition subscription (channels : names) : list (option pystr * pystr) :=
  match channels with
  | Name n => [(None, n)]
  | Names ns => fold_left (fun d chan => subscription_set chan d) ns []
  end.

(** [Pregel.subscribe_to(channels)], with the computation that is piped
    after it. *)
Definition subscribe_to (channels : names) (run : behaviour) : Process :=
  PregelInvoke (subscription channels) run.

(** [Pregel.subscribe_to_each(inbox, key)] *)
Definition subscribe_to_each (inbox : pystr) (key : option pystr)
    (run : behaviour) : Process :=
  PregelBatch inbox key run.

(** ** Two channel disciplines, for running the engine on examples *)

(** Modelled from the spec: the LastValue discipline of section 4.1
    (current value = last element of the writes; update replaces). *)
Definition LastValue (t : pytype) : Channel :=
  mkChannel (option value) None None
            (fun st writes => match writes with
                              | [] => st
                              | _ :: _ => Some (last writes VNone)
                              end)
            (fun st => st) t t.

(** Modelled from the spec: the Topic discipline of section 4.1 in the
    variant that is cleared at the step boundary (current value = list of
    the writes of the last update). *)
Definition Topic (t : pytype) : Channel :=
  mkChannel (option (list value)) None None
            (fun _ writes => Some writes)
            (fun st => match st with
                       | Some l => Some (VList l)
                       | None => None
                       end)
            t (TySeq t).

(** ** The vocabulary of the statements *)

Definition targets (chan : string) (w : write) : bool :=
  String.eqb (text (fst w)) chan.

(** Some pending write targeted [chan]. *)
Definition targeted (chan : string) (pending_writes : list write) : bool :=
  existsb (targets chan) pending_writes.

(** The values written to [chan], in buffer order. *)
Definition values_for (chan : string) (pending_writes : list write)
  : list value :=
  map snd (filter (targets chan) pending_writes).

(** The arguments of the [update] calls that [chan] received. *)
Definition update_calls (chan : string) (log : list event)
  : list (list value) :=
  flat_map (fun e => match e with
                     | Update c vals => if String.eqb c chan then [vals] else []
                     | Warning _ => []
                     end) log.

(** The pending writes whose name resolves in the registry. *)
Definition routed (channels : registry) (pending_writes : list write)
  : list write :=
  filter (fun w => contains channels (text (fst w))) pending_writes.

(** [chan] can be read without [EmptyChannelError]. *)
Definition readable (channels : registry) (chan : pystr) : bool :=
  match lookup (text chan) channels with
  | Some c => match chan_get c (state c) with
              | Some _ => true
              | None => false
              end
  | None => false
  end.

Fixpoint group_lookup (chan : string) (by_channel : list (pystr * list value))
  : option (list value) :=
  match by_channel with
  | [] => None
  | (k, vals) :: rest =>
      if String.eqb (text k) chan then Some vals else group_lookup chan rest
  end.

Definition group_keys (by_channel : list (pystr * list value)) : list string :=
  map (fun g => text (fst g)) by_channel.

Definition glue (old : option (list value)) (new : list value)
  : option (list value) :=
  match old, new with
  | None, [] => None
  | None, _ :: _ => Some new
  | Some vals, _ => Some (vals ++ new)
  end.

(** The call that the loop makes for one group, on a registry with the
    given names. *)
Definition group_event (channels : registry) (g : pystr * list value) : event :=
  if contains channels (text (fst g)) then Update (text (fst g)) (snd g)
  else Warning (skip_message (fst g)).

Definition routed_group (channels : registry) (g : pystr * list value) : bool :=
  contains channels (text (fst g)).

Definition option_list {A} (o : option A) : list A :=
  match o with
  | Some a => [a]
  | None => []
  end.

(** After its [update] call with the writes of a step, the channel holds
    a sequence: guarantee (b) of the channel contract, for a channel whose
    value is a list. *)
Definition sequence_after_update (c : Channel) : Prop :=
  forall vals, vals <> [] ->
    exists l, chan_get c (chan_update c (state c) vals) = Some (VList l).

(** Each of the next [n] iterations completes and leaves a task list that
    is not empty. *)
Fixpoint completes_all (self : Pregel) (n : nat) (step : nat)
    (channels : registry) (next_tasks : list task) : Prop :=
  match n with
  | O => True
  | S n' =>
      match run_step self step channels next_tasks with
      | Ok (_, channels', t :: ts) =>
          completes_all self n' (S step) channels' (t :: ts)
      | _ => False
      end
  end.

(** The eager form as the spec words it: the last element of the lazy
    form, or [None] when there is none; an exception of the lazy form is
    the exception of the eager one. *)
Definition invoke_spec (self : Pregel) (input : value) (config : RunnableConfig)
  : result value :=
  match finish (stream self input config) with
  | Ok _ => Ok (last (yielded (stream self input config)) VNone)
  | Raise exc => Raise exc
  end.



(** The values that the [update] calls of a trace handed to channels. *)
Definition delivered (log : list event) : list value :=
  flat_map (fun e => match e with
                     | Update _ vals => vals
                     | Warning _ => []
                     end) log.

(** The number of warnings in a trace that carry the message [msg]. *)
Definition warnings (msg : string) (log : list event) : nat :=
  length (filter (fun e => match e with
                           | Warning m => String.eqb m msg
                           | Update _ _ => false
                           end) log).

Definition all_values (by_channel : list (pystr * list value)) : list value :=
  flat_map snd by_channel.

(** [l1] is [l2] with some elements left out. *)
Inductive subsequence {A} : list A -> list A -> Prop :=
| sub_nil : subsequence [] []
| sub_skip (a : A) (l1 l2 : list A) :
    subsequence l1 l2 -> subsequence l1 (a :: l2)
| sub_keep (a : A) (l1 l2 : list A) :
    subsequence l1 l2 -> subsequence (a :: l1) (a :: l2).

(** The value that [channels[chan].get()] returns, if it returns. *)
Definition current_value (channels : registry) (chan : pystr) : option value :=
  match lookup (text chan) channels with
  | Some c => chan_get c (state c)
  | None => None
  end.

(** What a key of a subscription is compared by. *)
Definition key_text (k : option pystr) : option string :=
  option_map text k.

Definition outcome_of (channels : registry) (step : nat) (t : task) : outcome :=
  invoke_of (fst t) (snd t) (read channels) step.

(** Every key is the name it is bound to. *)
Definition keyed_by_name (d : list (option pystr * pystr)) : Prop :=
  forall kc, In kc d -> exists k, fst kc = Some k /\ text k = text (snd kc).

(** The value of a channel that holds one. *)
Definition value_of (channels : registry) (chan : pystr) : value :=
  match current_value channels chan with
  | Some v => v
  | None => VNone
  end.


(** [r] holds the elements of the batches, those of one batch in the
    order they have in the batch. *)
Inductive interleaving {A} : list (list A) -> list A -> Prop :=
| interleaving_done (batches : list (list A)) :
    Forall (fun batch => batch = []) batches -> interleaving batches []
| interleaving_next (before after : list (list A)) (a : A)
    (batch r : list A) :
    interleaving (before ++ batch :: after) r ->
    interleaving (before ++ (a :: batch) :: after) (a :: r).

(** The buffer of a step holds the writes of its tasks, those of one task
    in the order in which the task sent them. *)
Definition fair_arrival (r : Runtime) : Prop :=
  forall step batches, interleaving batches (arrival r step batches).

(** The exception that is raised is that of a task that failed. *)
Definition pops_a_failure (r : Runtime) : Prop :=
  forall step e es, In (popped r step (e :: es)) (e :: es).

(** Iterating a set visits each of its elements once. *)
Definition iterates_the_set (r : Runtime) : Prop :=
  forall l, Permutation (iteration r l) l.


(** The mapping with the given entries under string keys. *)
Definition mapping (entries : list (pystr * value)) : value :=
  VDict (map (fun kv => (VStr (fst kv), snd kv)) entries).

(** ** Engines to run *)

Definition name_input : pystr := PyStr 1000 "input".
Definition name_output : pystr := PyStr 1001 "output".

(** A string equal to [name_output] that is another object, as one
    assembled at run time is. *)
Definition joined_output : pystr := PyStr 1002 "output".

Definition name_ghost : pystr := PyStr 1003 "ghost".
Definition name_items : pystr := PyStr 1004 "items".
Definition name_item : pystr := PyStr 1005 "item".
Definition hello : value := VStr (PyStr 2000 "hello").

(** A process that sends its input to [target]. *)
Definition forward_to (target : pystr) : behaviour :=
  fun input _ _ => Done [(target, input)].

Definition echo (target : pystr) : Process :=
  PregelInvoke [(None, name_input)] (forward_to target).

(** The chat-room echo: one process from [input] to a channel named
    ["output"], the name being the object [target]. *)
Definition chat_room (target : pystr) : Pregel :=
  mkPregel [("input", LastValue TyStr); ("output", LastValue TyStr)]
           [echo target] (Name name_output) (Name name_input).

(** A process that feeds its own input channel: its task list never
    becomes empty. *)
Definition spinner : Pregel :=
  mkPregel [("input", LastValue TyInt); ("output", LastValue TyInt)]
           [echo name_input; echo name_output]
           (Name name_output) (Name name_input).

Definition record_source : Pregel :=
  mkPregel [("input", LastValue TyStr); ("items", Topic TyInt)]
           [echo name_input]
           (Name name_input) (Names [name_items; name_input; name_items]).

Definition chat_registry : registry :=
  ChannelsManager (channels (chat_room name_output)).

Definition items_registry : registry := [("items", Topic TyInt)].

Definition each_item : Process :=
  PregelBatch name_items (Some name_item) (forward_to name_output).

Definition failing : behaviour := fun _ _ _ => Failed (UserError "boom").

Definition sleeping : behaviour := fun _ _ _ => Inflight.

(** The chat room's registry once both channels hold a value. *)
Definition warm_registry : registry :=
  update_channel (update_channel chat_registry "input" [hello]) "output" [hello].

Definition record_sink : Pregel :=
  mkPregel [("input", LastValue TyStr); ("output", LastValue TyStr)]
           [echo name_input; echo name_output]
           (Names [name_input; name_output]) (Name name_input).

(** An engine that declares a name its registry does not have. *)
Definition misdeclared : Pregel :=
  mkPregel [("input", LastValue TyStr)]
           [] (Names [name_input; name_ghost]) (Names [name_input; name_ghost]).

Definition both_channels : list (option pystr * pystr) :=
  [(Some name_input, name_input); (Some name_output, name_output)].

(** A process that needs both channels: after seeding, [output] is still
    empty and the process is not ready. *)
Definition waiting : Pregel :=
  mkPregel [("input", LastValue TyStr); ("output", LastValue TyStr)]
           [PregelInvoke both_channels (forward_to name_output)]
           (Name name_output) (Name name_input).



(** A runtime: writes arrive task by task, the first failed task in task
    order is popped first, a set is iterated in insertion order. *)
Definition task_order : Runtime :=
  mkRuntime (fun _ batches => concat batches)
            (fun step es => hd (TimeoutError step) es)
            (fun l => l).

(** pydantic 1.10: the public attributes of [BaseModel], and the
    parameters of [create_model] with the root key.  The engines above
    declare no name among the latter; [TypeError] stands in for what such
    a call comes to. *)
Definition pydantic_v1 : Pydantic :=
  mkPydantic
    (fun k => mem k ["Config"; "construct"; "copy"; "dict"; "from_orm"; "json";
                     "parse_file"; "parse_obj"; "parse_raw"; "schema";
                     "schema_json"; "update_forward_refs"; "validate"])
    (fun k => mem k ["__model_name"; "__config__"; "__base__"; "__module__";
                     "__validators__"; "__cls_kwargs__"; "__slots__";
                     "__root__"])
    (fun _ _ => Raise TypeError).

(** * Properties *)

(** ** Registry lemmas *)

Lemma lookup_update_channel (channels : registry) (k chan : string)
    (vals : list value) :
  lookup chan (update_channel channels k vals) =
  if String.eqb k chan
  then option_map (fun c => update c vals) (lookup chan channels)
  else lookup chan channels.
Proof.
  induction channels as [|[k' c] rest IH]; simpl.
  - now destruct (String.eqb k chan).
  - destruct (String.eqb k' k) eqn:Ek; simpl.
    + apply String.eqb_eq in Ek; subst k'.
      destruct (String.eqb k chan) eqn:Ec; simpl; reflexivity.
    + destruct (String.eqb k' chan) eqn:Ec; simpl.
      * apply String.eqb_eq in Ec; subst k'.
        rewrite String.eqb_sym in Ek. now rewrite Ek.
      * apply IH.
Qed.

Lemma contains_update_channel (channels : registry) (k chan : string)
    (vals : list value) :
  contains (update_channel channels k vals) chan = contains channels chan.
Proof.
  unfold contains. rewrite lookup_update_channel.
  destruct (String.eqb k chan); [|reflexivity].
  now destruct (lookup chan channels).
Qed.


Lemma lookup_keys {A} (k : string) (d : list (string * A)) (a : A) :
  lookup k d = Some a -> In k (map fst d).
Proof.
  induction d as [|[k' a'] d IH]; simpl; [discriminate|].
  destruct (String.eqb k' k) eqn:E; [apply String.eqb_eq in E; auto|auto].
Qed.

(** ** Grouping the writes by channel *)

Lemma group_lookup_none (chan : string) (G : list (pystr * list value)) :
  group_lookup chan G = None <-> ~ In chan (group_keys G).
Proof.
  induction G as [|[k vals] G IH]; simpl; [tauto|].
  destruct (String.eqb (text k) chan) eqn:E.
  - apply String.eqb_eq in E. split; [discriminate|tauto].
  - apply String.eqb_neq in E. rewrite IH. tauto.
Qed.

Lemma append_write_lookup (c : pystr) (v : value) (chan : string)
    (G : list (pystr * list value)) :
  group_lookup chan (append_write c v G) =
  if String.eqb (text c) chan
  then Some (match group_lookup chan G with
             | Some vals => vals ++ [v]
             | None => [v]
             end)
  else group_lookup chan G.
Proof.
  induction G as [|[k vals] G IH]; simpl.
  - reflexivity.
  - unfold str_eq. destruct (String.eqb (text k) (text c)) eqn:Ek; simpl.
    + apply String.eqb_eq in Ek. rewrite Ek.
      now destruct (String.eqb (text c) chan).
    + destruct (String.eqb (text k) chan) eqn:Ec.
      * apply String.eqb_eq in Ec; subst chan.
        rewrite String.eqb_sym in Ek. now rewrite Ek.
      * apply IH.
Qed.

Lemma append_write_keys (c : pystr) (v : value)
    (G : list (pystr * list value)) :
  group_keys (append_write c v G) =
  if existsb (String.eqb (text c)) (group_keys G)
  then group_keys G else group_keys G ++ [text c].
Proof.
  induction G as [|[k vals] G IH]; simpl; [reflexivity|].
  unfold str_eq. rewrite (String.eqb_sym (text c) (text k)).
  destruct (String.eqb (text k) (text c)); simpl; [reflexivity|].
  fold (group_keys G). rewrite IH.
  now destruct (existsb (String.eqb (text c)) (group_keys G)).
Qed.

Lemma existsb_eqb_In (k : string) (l : list string) :
  existsb (String.eqb k) l = true <-> In k l.
Proof.
  rewrite existsb_exists. split.
  - intros [x [Hx E]]. apply String.eqb_eq in E. now subst.
  - intros H. exists k. split; [assumption|apply String.eqb_refl].
Qed.

Lemma append_write_NoDup (c : pystr) (v : value)
    (G : list (pystr * list value)) :
  NoDup (group_keys G) -> NoDup (group_keys (append_write c v G)).
Proof.
  intros H. rewrite append_write_keys.
  destruct (existsb (String.eqb (text c)) (group_keys G)) eqn:E; [assumption|].
  apply NoDup_app; [assumption|repeat constructor; simpl; tauto|].
  intros x Hin [<-|[]].
  apply existsb_eqb_In in Hin. congruence.
Qed.

Lemma fold_append_write_lookup (pw : list write) (chan : string) :
  forall G,
    group_lookup chan
      (fold_left (fun by_channel w => append_write (fst w) (snd w) by_channel) pw G)
    = glue (group_lookup chan G) (values_for chan pw).
Proof.
  induction pw as [|[c v] pw IH]; intros G; simpl.
  - unfold values_for; simpl. destruct (group_lookup chan G); simpl;
      [now rewrite app_nil_r|reflexivity].
  - rewrite IH, append_write_lookup. unfold values_for, targets; simpl.
    destruct (String.eqb (text c) chan); simpl; [|reflexivity].
    destruct (group_lookup chan G); simpl; [now rewrite <- app_assoc|reflexivity].
Qed.

Lemma fold_append_write_NoDup (pw : list write) :
  forall G, NoDup (group_keys G) ->
    NoDup (group_keys
      (fold_left (fun by_channel w => append_write (fst w) (snd w) by_channel) pw G)).
Proof.
  induction pw as [|[c v] pw IH]; intros G H; simpl; [assumption|].
  apply IH, append_write_NoDup, H.
Qed.

Lemma values_for_targeted (chan : string) (pw : list write) :
  targeted chan pw = match values_for chan pw with [] => false | _ :: _ => true end.
Proof.
  unfold targeted, values_for.
  induction pw as [|w pw IH]; simpl; [reflexivity|].
  destruct (targets chan w); simpl; [reflexivity|assumption].
Qed.

Lemma group_writes_lookup (pw : list write) (chan : string) :
  group_lookup chan (group_writes pw) =
  if targeted chan pw then Some (values_for chan pw) else None.
Proof.
  unfold group_writes. rewrite fold_append_write_lookup; simpl.
  rewrite values_for_targeted. now destruct (values_for chan pw).
Qed.

Lemma group_writes_NoDup (pw : list write) :
  NoDup (group_keys (group_writes pw)).
Proof.
  apply fold_append_write_NoDup. constructor.
Qed.

(** ** Applying the groups to the registry *)

Lemma mem_set_add (k c : string) (s : list string) :
  mem k (set_add c s) = mem k s || String.eqb k c.
Proof.
  unfold set_add. destruct (mem c s) eqn:E.
  - destruct (String.eqb k c) eqn:Ek; [|now rewrite orb_false_r].
    apply String.eqb_eq in Ek; subst. now rewrite E.
  - unfold mem. rewrite existsb_app; simpl. now rewrite orb_false_r.
Qed.

Lemma fold_apply_contains (G : list (pystr * list value)) :
  forall st k,
    contains (channels_after (fold_left apply_group G st)) k =
    contains (channels_after st) k.
Proof.
  induction G as [|[c vals] G IH]; intros st k; simpl; [reflexivity|].
  rewrite IH. destruct (contains (channels_after st) (text c)); simpl;
    [apply contains_update_channel|reflexivity].
Qed.

Lemma contains_ext_group_event (chs chs' : registry) :
  (forall k, contains chs' k = contains chs k) ->
  forall G, map (group_event chs') G = map (group_event chs) G.
Proof.
  intros H G. apply map_ext. intros g. unfold group_event. now rewrite H.
Qed.

Lemma fold_apply_events (G : list (pystr * list value)) :
  forall st,
    events (fold_left apply_group G st) =
    events st ++ map (group_event (channels_after st)) G.
Proof.
  induction G as [|[c vals] G IH]; intros st; simpl.
  - now rewrite app_nil_r.
  - rewrite IH. unfold group_event at 2; simpl.
    destruct (contains (channels_after st) (text c)) eqn:E; simpl;
      rewrite <- app_assoc; simpl; [|reflexivity].
    do 2 f_equal. apply contains_ext_group_event.
    intros k. apply contains_update_channel.
Qed.

Lemma fold_apply_updated (G : list (pystr * list value)) :
  forall st k,
    mem k (updated_channels (fold_left apply_group G st)) =
    mem k (updated_channels st)
    || (contains (channels_after st) k && existsb (String.eqb k) (group_keys G)).
Proof.
  induction G as [|[c vals] G IH]; intros st k; simpl.
  - now rewrite andb_false_r, orb_false_r.
  - rewrite IH. destruct (contains (channels_after st) (text c)) eqn:E; simpl.
    + rewrite mem_set_add, contains_update_channel.
      destruct (String.eqb k (text c)) eqn:Ek; simpl.
      * apply String.eqb_eq in Ek; subst k. rewrite E; simpl.
        now rewrite !orb_true_r.
      * now rewrite orb_false_r.
    + destruct (String.eqb k (text c)) eqn:Ek; simpl; [|reflexivity].
      apply String.eqb_eq in Ek; subst k. now rewrite E.
Qed.

Lemma fold_apply_lookup (G : list (pystr * list value)) :
  NoDup (group_keys G) ->
  forall st chan,
    lookup chan (channels_after (fold_left apply_group G st)) =
    option_map (fun c => match group_lookup chan G with
                         | Some vals => update c vals
                         | None => c
                         end)
               (lookup chan (channels_after st)).
Proof.
  induction G as [|[c vals] G IH]; intros ND st chan; simpl.
  - now destruct (lookup chan (channels_after st)).
  - inversion ND as [|? ? Hnotin ND']; subst.
    rewrite (IH ND'). unfold contains.
    destruct (lookup (text c) (channels_after st)) as [ch|] eqn:E; simpl.
    + rewrite lookup_update_channel.
      destruct (String.eqb (text c) chan) eqn:Ec.
      * apply String.eqb_eq in Ec; subst chan. rewrite E; simpl.
        apply group_lookup_none in Hnotin. now rewrite Hnotin.
      * reflexivity.
    + destruct (String.eqb (text c) chan) eqn:Ec; [|reflexivity].
      apply String.eqb_eq in Ec; subst chan. now rewrite E.
Qed.

Lemma update_calls_app (chan : string) (l1 l2 : list event) :
  update_calls chan (l1 ++ l2) = update_calls chan l1 ++ update_calls chan l2.
Proof. unfold update_calls. apply flat_map_app. Qed.

Lemma update_calls_groups (channels : registry) (chan : string)
    (G : list (pystr * list value)) :
  NoDup (group_keys G) ->
  update_calls chan (map (group_event channels) G) =
  if contains channels chan
  then match group_lookup chan G with
       | Some vals => [vals]
       | None => []
       end
  else [].
Proof.
  induction G as [|[c vals] G IH]; intros ND; simpl.
  - now destruct (contains channels chan).
  - inversion ND as [|? ? Hnotin ND']; subst.
    change (update_calls chan (group_event channels (c, vals)
                               :: map (group_event channels) G))
      with (update_calls chan [group_event channels (c, vals)]
            ++ update_calls chan (map (group_event channels) G)).
    rewrite (IH ND'). unfold group_event; simpl.
    destruct (String.eqb (text c) chan) eqn:Ec.
    + apply String.eqb_eq in Ec; subst chan.
      apply group_lookup_none in Hnotin. rewrite Hnotin.
      destruct (contains channels (text c)); simpl;
        [now rewrite String.eqb_refl|reflexivity].
    + destruct (contains channels (text c)); simpl; [now rewrite Ec|reflexivity].
Qed.

(** The planner's first two loops in closed form. *)
Lemma apply_writes_events (channels : registry) (pw : list write) :
  events (apply_writes channels pw) =
  map (group_event channels) (group_writes pw).
Proof. unfold apply_writes. now rewrite fold_apply_events. Qed.

Lemma apply_writes_contains (channels : registry) (pw : list write) (k : string) :
  contains (channels_after (apply_writes channels pw)) k = contains channels k.
Proof. unfold apply_writes. now rewrite fold_apply_contains. Qed.

Lemma targeted_group_keys (chan : string) (pw : list write) :
  existsb (String.eqb chan) (group_keys (group_writes pw)) = targeted chan pw.
Proof.
  pose proof (group_writes_lookup pw chan) as H.
  destruct (existsb (String.eqb chan) (group_keys (group_writes pw))) eqn:E.
  - apply existsb_eqb_In in E.
    destruct (targeted chan pw); [reflexivity|].
    apply group_lookup_none in H. contradiction.
  - destruct (targeted chan pw); [|reflexivity].
    assert (~ In chan (group_keys (group_writes pw))) as N.
    { intros Hin. apply existsb_eqb_In in Hin. congruence. }
    apply group_lookup_none in N. congruence.
Qed.

Lemma apply_writes_updated (channels : registry) (pw : list write) (k : string) :
  mem k (updated_channels (apply_writes channels pw)) =
  contains channels k && targeted k pw.
Proof.
  unfold apply_writes. rewrite fold_apply_updated; simpl.
  now rewrite targeted_group_keys.
Qed.

Lemma apply_writes_lookup (channels : registry) (pw : list write) (chan : string) :
  lookup chan (channels_after (apply_writes channels pw)) =
  option_map (fun c => if targeted chan pw
                       then update c (values_for chan pw) else c)
             (lookup chan channels).
Proof.
  unfold apply_writes.
  rewrite (fold_apply_lookup _ (group_writes_NoDup pw)); simpl.
  rewrite group_writes_lookup. now destruct (targeted chan pw).
Qed.

Lemma apply_writes_update_calls (channels : registry) (pw : list write)
    (chan : string) :
  update_calls chan (events (apply_writes channels pw)) =
  if contains channels chan && targeted chan pw
  then [values_for chan pw] else [].
Proof.
  rewrite apply_writes_events, (update_calls_groups _ _ _ (group_writes_NoDup _)).
  rewrite group_writes_lookup.
  destruct (contains channels chan), (targeted chan pw); reflexivity.
Qed.

(** C3: at a step boundary a registered channel that some pending write
    targeted receives exactly one [update] call, whose argument is the
    list of the values written to it in buffer order, and the channel of
    the registry is the one that call left; a name that no write targeted
    (or that is not registered) receives no [update] call and its channel
    is untouched. *)
Theorem C3_one_update_per_written_channel (processes : list Process)
    (channels : registry) (pending_writes : list write) (chan : string) :
  let p := _apply_writes_and_prepare_next_tasks processes channels pending_writes in
  update_calls chan (trace p) =
    (if contains channels chan && targeted chan pending_writes
     then [values_for chan pending_writes] else [])
  /\ lookup chan (registry_after p) =
     option_map (fun c => if targeted chan pending_writes
                          then update c (values_for chan pending_writes) else c)
                (lookup chan channels).
Proof.
  simpl. split.
  - apply apply_writes_update_calls.
  - apply apply_writes_lookup.
Qed.

(** ** Writes to names that the registry does not know *)

Lemma append_write_routed (channels : registry) (c : pystr) (v : value)
    (G : list (pystr * list value)) :
  filter (routed_group channels) (append_write c v G) =
  if contains channels (text c)
  then append_write c v (filter (routed_group channels) G)
  else filter (routed_group channels) G.
Proof.
  unfold routed_group.
  induction G as [|[k vals] G IH]; simpl.
  - now destruct (contains channels (text c)).
  - unfold str_eq. destruct (String.eqb (text k) (text c)) eqn:Ek; simpl.
    + apply String.eqb_eq in Ek. rewrite Ek.
      destruct (contains channels (text c)) eqn:Ec; simpl; [|reflexivity].
      unfold str_eq. now rewrite Ek, String.eqb_refl.
    + destruct (contains channels (text k)) eqn:Ck; simpl.
      * rewrite IH. destruct (contains channels (text c)); simpl;
          [|reflexivity].
        unfold str_eq. now rewrite Ek.
      * apply IH.
Qed.

Lemma group_writes_routed (channels : registry) (pw : list write) :
  group_writes (routed channels pw) =
  filter (routed_group channels) (group_writes pw).
Proof.
  unfold group_writes.
  change (@nil (pystr * list value))
    with (filter (routed_group channels) []) at 1.
  generalize (@nil (pystr * list value)) as G.
  induction pw as [|[c v] pw IH]; intros G; simpl; [reflexivity|].
  rewrite <- IH, append_write_routed.
  now destruct (contains channels (text c)).
Qed.

Lemma fold_apply_routed (channels : registry) (G : list (pystr * list value)) :
  forall st st',
    channels_after st = channels_after st' ->
    updated_channels st = updated_channels st' ->
    (forall k, contains (channels_after st) k = contains channels k) ->
    channels_after (fold_left apply_group G st) =
      channels_after (fold_left apply_group (filter (routed_group channels) G) st')
    /\ updated_channels (fold_left apply_group G st) =
      updated_channels (fold_left apply_group (filter (routed_group channels) G) st').
Proof.
  induction G as [|[c vals] G IH]; intros st st' Hc Hu Hk; simpl; [tauto|].
  change (routed_group channels (c, vals)) with (contains channels (text c)).
  assert (channels_after (apply_group st (c, vals)) =
          channels_after (apply_group st' (c, vals))) as Hc'.
  { unfold apply_group. rewrite <- Hc.
    now destruct (contains (channels_after st) (text c)). }
  assert (updated_channels (apply_group st (c, vals)) =
          updated_channels (apply_group st' (c, vals))) as Hu'.
  { unfold apply_group. rewrite <- Hc, <- Hu.
    now destruct (contains (channels_after st) (text c)). }
  assert (forall k, contains (channels_after (apply_group st (c, vals))) k =
                    contains channels k) as Hk'.
  { intros k. unfold apply_group.
    destruct (contains (channels_after st) (text c)); simpl;
      [rewrite contains_update_channel|]; apply Hk. }
  destruct (contains channels (text c)) eqn:E; simpl.
  - apply IH; assumption.
  - apply IH; try assumption.
    + rewrite Hk, E. exact Hc.
    + rewrite Hk, E. exact Hu.
Qed.

Lemma apply_writes_routed (channels : registry) (pw : list write) :
  channels_after (apply_writes channels pw) =
    channels_after (apply_writes channels (routed channels pw))
  /\ updated_channels (apply_writes channels pw) =
    updated_channels (apply_writes channels (routed channels pw)).
Proof.
  unfold apply_writes. rewrite group_writes_routed.
  apply fold_apply_routed; reflexivity.
Qed.

Lemma values_for_routed (channels : registry) (pw : list write) (chan : string) :
  contains channels chan = true ->
  values_for chan (routed channels pw) = values_for chan pw.
Proof.
  intros H. unfold values_for, routed.
  induction pw as [|[c v] pw IH]; simpl; [reflexivity|].
  unfold targets at 2; simpl.
  destruct (String.eqb (text c) chan) eqn:E.
  - apply String.eqb_eq in E; subst chan. rewrite H; simpl.
    unfold targets at 1; simpl. rewrite String.eqb_refl; simpl. now rewrite IH.
  - destruct (contains channels (text c)); simpl; [|assumption].
    unfold targets at 1; simpl. now rewrite E.
Qed.

Lemma skip_message_text (a b : pystr) :
  text a = text b -> skip_message a = skip_message b.
Proof. unfold skip_message. now intros ->. Qed.

Lemma In_targeted (chan : pystr) (val : value) (pw : list write) :
  In (chan, val) pw -> targeted (text chan) pw = true.
Proof.
  intros H. apply existsb_exists. exists (chan, val).
  split; [assumption|apply String.eqb_refl].
Qed.

Lemma targeted_routed (channels : registry) (pw : list write) (chan : string) :
  contains channels chan = true ->
  targeted chan (routed channels pw) = targeted chan pw.
Proof.
  intros H. now rewrite !values_for_targeted, values_for_routed.
Qed.

(** C4: a pending write whose channel name is not in the registry makes
    the planner emit the warning for that name; no [update] call is made
    for the name, the name does not enter the updated set, and the planner
    goes on as if the unrouted writes had not been in the buffer: every
    channel receives the same [update] calls, and the registry and the
    task list (or the exception) are the same. *)
Theorem C4_unrouted_write_dropped (processes : list Process)
    (channels : registry) (pending_writes : list write)
    (chan : pystr) (val : value) :
  In (chan, val) pending_writes ->
  contains channels (text chan) = false ->
  let p := _apply_writes_and_prepare_next_tasks processes channels pending_writes in
  let p' := _apply_writes_and_prepare_next_tasks processes channels
              (routed channels pending_writes) in
  In (Warning (skip_message chan)) (trace p)
  /\ update_calls (text chan) (trace p) = []
  /\ mem (text chan) (updated_channels (apply_writes channels pending_writes)) = false
  /\ (forall c, update_calls c (trace p) = update_calls c (trace p'))
  /\ registry_after p = registry_after p'
  /\ next p = next p'.
Proof.
  intros Hin Hc p p'.
  pose proof (apply_writes_routed channels pending_writes) as [Hr Hu].
  repeat split.
  - subst p; simpl. rewrite apply_writes_events.
    pose proof (In_targeted _ _ _ Hin) as Ht.
    rewrite <- targeted_group_keys in Ht. apply existsb_eqb_In in Ht.
    unfold group_keys in Ht. apply in_map_iff in Ht as [g [Hg Hing]].
    apply in_map_iff. exists g. split; [|assumption].
    unfold group_event. rewrite Hg, Hc.
    f_equal. now apply skip_message_text.
  - subst p; simpl. now rewrite apply_writes_update_calls, Hc.
  - now rewrite apply_writes_updated, Hc.
  - intros c. subst p p'; simpl. rewrite !apply_writes_update_calls.
    destruct (contains channels c) eqn:E; simpl; [|reflexivity].
    now rewrite targeted_routed, values_for_routed.
  - subst p p'; simpl. exact Hr.
  - subst p p'; simpl. now rewrite Hr, Hu.
Qed.

(** ** The task loop of the planner *)

Lemma prepare_tasks_acc (channels : registry) (updated : list string)
    (processes : list Process) :
  forall tasks,
    prepare_tasks channels updated processes tasks =
    (do ts <- prepare_tasks channels updated processes []; Ok (tasks ++ ts)).
Proof.
  induction processes as [|proc rest IH]; intros tasks; simpl.
  - now rewrite app_nil_r.
  - destruct (prepare_task channels updated proc) as [[t|]|e]; simpl.
    + rewrite (IH (tasks ++ [t])), (IH [t]).
      destruct (prepare_tasks channels updated rest []); simpl;
        [|reflexivity].
      f_equal. symmetry. apply (app_assoc tasks [t] a).
    + apply IH.
    + reflexivity.
Qed.

Lemma prepare_tasks_insert (channels : registry) (updated : list string)
    (before after : list Process) (proc : Process) :
  prepare_tasks channels updated (before ++ proc :: after) [] =
  (do t1 <- prepare_tasks channels updated before [];
   do o <- prepare_task channels updated proc;
   do t2 <- prepare_tasks channels updated after [];
   Ok (t1 ++ option_list o ++ t2)).
Proof.
  induction before as [|q before IH]; simpl.
  - destruct (prepare_task channels updated proc) as [[t|]|e]; simpl.
    + rewrite prepare_tasks_acc. reflexivity.
    + now destruct (prepare_tasks channels updated after []).
    + reflexivity.
  - destruct (prepare_task channels updated q) as [[t|]|e]; simpl.
    + rewrite prepare_tasks_acc, IH, (prepare_tasks_acc _ _ before [t]).
      destruct (prepare_tasks channels updated before []); simpl; [|reflexivity].
      destruct (prepare_task channels updated proc); simpl; [|reflexivity].
      destruct (prepare_tasks channels updated after []); reflexivity.
    + apply IH.
    + reflexivity.
Qed.

Lemma prepare_tasks_app (channels : registry) (updated : list string)
    (before after : list Process) :
  prepare_tasks channels updated (before ++ after) [] =
  (do t1 <- prepare_tasks channels updated before [];
   do t2 <- prepare_tasks channels updated after [];
   Ok (t1 ++ t2)).
Proof.
  induction before as [|q before IH]; simpl.
  - now destruct (prepare_tasks channels updated after []).
  - destruct (prepare_task channels updated q) as [[t|]|e]; simpl.
    + rewrite prepare_tasks_acc, IH, (prepare_tasks_acc _ _ before [t]).
      destruct (prepare_tasks channels updated before []); simpl; [|reflexivity].
      destruct (prepare_tasks channels updated after []); reflexivity.
    + apply IH.
    + reflexivity.
Qed.

Lemma read_subscriptions_registered (channels : registry)
    (items : list (option pystr * pystr)) :
  (forall k chan, In (k, chan) items -> contains channels (text chan) = true) ->
  forall val,
    if forallb (readable channels) (map snd items)
    then exists val', read_subscriptions channels items val = Ok val'
    else read_subscriptions channels items val = Raise EmptyChannelError.
Proof.
  induction items as [|[k chan] rest IH]; intros Hreg val; simpl.
  - eauto.
  - assert (contains channels (text chan) = true) as Hc
      by (apply (Hreg k); now left).
    unfold contains in Hc. unfold readable at 1, getitem, get.
    destruct (lookup (text chan) channels) as [c|]; [|discriminate]; simpl.
    destruct (chan_get c (state c)); simpl; [|reflexivity].
    apply IH. intros k' chan' H. apply (Hreg k'). now right.
Qed.

Lemma existsb_updated (channels : registry) (pw : list write)
    (items : list (option pystr * pystr)) :
  (forall k chan, In (k, chan) items -> contains channels (text chan) = true) ->
  existsb (fun kc => mem (text (snd kc))
                       (updated_channels (apply_writes channels pw))) items =
  existsb (fun kc => targeted (text (snd kc)) pw) items.
Proof.
  induction items as [|[k chan] rest IH]; intros Hreg; simpl; [reflexivity|].
  rewrite apply_writes_updated, (Hreg k chan) by now left.
  rewrite IH; [reflexivity|].
  intros k' chan' H. apply (Hreg k'). now right.
Qed.

Lemma keys_are_none_inv (items : list (option pystr * pystr)) :
  keys_are_none items = true -> exists chan, items = [(None, chan)].
Proof.
  unfold keys_are_none.
  destruct items as [|[[k|] chan] [|? ?]]; simpl; try discriminate.
  eauto.
Qed.

(** An Invoke process whose reads all succeed is given an input. *)
Lemma invoke_input_exists (channels : registry) (updated : list string)
    (subscribed : list (option pystr * pystr)) (run : behaviour) val :
  existsb (fun kc => mem (text (snd kc)) updated) subscribed = true ->
  read_subscriptions channels subscribed [] = Ok val ->
  exists input,
    prepare_task channels updated (PregelInvoke subscribed run) =
    Ok (Some (PregelInvoke subscribed run, input)).
Proof.
  intros Hany Hread. simpl. rewrite Hany, Hread.
  destruct (keys_are_none subscribed) eqn:K; [|eauto].
  apply keys_are_none_inv in K as [chan ->].
  simpl in Hread. unfold bind in Hread.
  destruct (getitem channels chan); [|discriminate].
  destruct (get a); [|discriminate].
  injection Hread as <-. simpl. eauto.
Qed.

(** C2: for an Invoke process whose subscribed names are registered, the
    planner adds the process to the task list if and only if some pending
    write of the boundary targeted one of its subscribed names and every
    subscribed channel can be read; otherwise the process is skipped
    without an error: the planner answers what it answers for the process
    list without it. *)
Theorem C2_invoke_readiness (channels : registry) (pending_writes : list write)
    (subscribed : list (option pystr * pystr)) (run : behaviour)
    (before after : list Process) :
  (forall k chan, In (k, chan) subscribed -> contains channels (text chan) = true) ->
  let proc := PregelInvoke subscribed run in
  let a := apply_writes channels pending_writes in
  let plan := fun processes =>
    next (_apply_writes_and_prepare_next_tasks processes channels pending_writes) in
  if existsb (fun kc => targeted (text (snd kc)) pending_writes) subscribed
     && forallb (readable (channels_after a)) (map snd subscribed)
  then exists input,
      prepare_task (channels_after a) (updated_channels a) proc
        = Ok (Some (proc, input))
      /\ plan (before ++ proc :: after)
         = (do t1 <- plan before; do t2 <- plan after;
            Ok (t1 ++ (proc, input) :: t2))
  else prepare_task (channels_after a) (updated_channels a) proc = Ok None
       /\ plan (before ++ proc :: after) = plan (before ++ after).
Proof.
  intros Hreg proc a plan.
  assert (forall k chan, In (k, chan) subscribed ->
            contains (channels_after a) (text chan) = true) as Hreg'.
  { intros k chan H. subst a. rewrite apply_writes_contains. eauto. }
  pose proof (read_subscriptions_registered _ _ Hreg' []) as Hread.
  pose proof (existsb_updated channels pending_writes subscribed Hreg) as Hany.
  fold a in Hany.
  assert (forall o, prepare_task (channels_after a) (updated_channels a) proc
                    = Ok o ->
            plan (before ++ proc :: after) =
            (do t1 <- plan before; do t2 <- plan after;
             Ok (t1 ++ option_list o ++ t2))) as Hplan.
  { intros o Ho. subst plan; simpl. fold a.
    rewrite prepare_tasks_insert, Ho.
    destruct (prepare_tasks (channels_after a) (updated_channels a) before []);
      reflexivity. }
  destruct (existsb (fun kc => targeted (text (snd kc)) pending_writes) subscribed)
    eqn:Et; simpl.
  - destruct (forallb (readable (channels_after a)) (map snd subscribed)).
    + destruct Hread as [val Hval].
      destruct (invoke_input_exists _ _ _ run _ Hany Hval) as [input Hin].
      exists input. split; [exact Hin|]. now rewrite (Hplan _ Hin).
    + assert (prepare_task (channels_after a) (updated_channels a) proc = Ok None)
        as Hnone by (simpl; now rewrite Hany, Hread).
      split; [exact Hnone|]. rewrite (Hplan _ Hnone).
      subst plan; simpl. fold a. now rewrite prepare_tasks_app.
  - assert (prepare_task (channels_after a) (updated_channels a) proc = Ok None)
      as Hnone by (simpl; now rewrite Hany).
    split; [exact Hnone|]. rewrite (Hplan _ Hnone).
    subst plan; simpl. fold a. now rewrite prepare_tasks_app.
Qed.

(** C8: a Batch process is added to the task list if and only if its
    channel was updated at the boundary, that is, the channel is
    registered and some pending write targeted it.  When it is, reading
    the channel succeeds, and the input is the channel's sequence with
    each element [v] turned into [{key: v}] when the key is set, and the
    sequence itself otherwise. *)
Theorem C8_batch_readiness (channels : registry) (pending_writes : list write)
    (channel : pystr) (key : option pystr) (run : behaviour)
    (before after : list Process) :
  (forall c, lookup (text channel) channels = Some c -> sequence_after_update c) ->
  let proc := PregelBatch channel key run in
  let a := apply_writes channels pending_writes in
  let plan := fun processes =>
    next (_apply_writes_and_prepare_next_tasks processes channels pending_writes) in
  mem (text channel) (updated_channels a)
    = contains channels (text channel) && targeted (text channel) pending_writes
  /\ if mem (text channel) (updated_channels a)
     then exists c l,
         lookup (text channel) (channels_after a) = Some c
         /\ get c = Ok (VList l)
         /\ let input :=
              VList (match key with
                     | Some k => map (fun v => VDict [(VStr k, v)]) l
                     | None => l
                     end) in
            prepare_task (channels_after a) (updated_channels a) proc
              = Ok (Some (proc, input))
            /\ plan (before ++ proc :: after)
               = (do t1 <- plan before; do t2 <- plan after;
                  Ok (t1 ++ (proc, input) :: t2))
     else prepare_task (channels_after a) (updated_channels a) proc = Ok None
          /\ plan (before ++ proc :: after) = plan (before ++ after).
Proof.
  intros Hseq proc a plan.
  assert (forall o, prepare_task (channels_after a) (updated_channels a) proc
                    = Ok o ->
            plan (before ++ proc :: after) =
            (do t1 <- plan before; do t2 <- plan after;
             Ok (t1 ++ option_list o ++ t2))) as Hplan.
  { intros o Ho. subst plan; simpl. fold a.
    rewrite prepare_tasks_insert, Ho.
    destruct (prepare_tasks (channels_after a) (updated_channels a) before []);
      reflexivity. }
  pose proof (apply_writes_updated channels pending_writes (text channel)) as Hu.
  fold a in Hu. split; [exact Hu|].
  destruct (mem (text channel) (updated_channels a)) eqn:Em.
  - symmetry in Hu. apply andb_true_iff in Hu as [Hc Ht].
    pose proof (apply_writes_lookup channels pending_writes (text channel)) as Hl.
    fold a in Hl. rewrite Ht in Hl. unfold contains in Hc.
    destruct (lookup (text channel) channels) as [c0|] eqn:E0; [|discriminate].
    simpl in Hl.
    destruct (Hseq c0 eq_refl (values_for (text channel) pending_writes))
      as [l Hget].
    { rewrite values_for_targeted in Ht.
      now destruct (values_for (text channel) pending_writes). }
    exists (update c0 (values_for (text channel) pending_writes)), l.
    assert (get (update c0 (values_for (text channel) pending_writes))
            = Ok (VList l)) as Hg.
    { unfold get; simpl. now rewrite Hget. }
    split; [exact Hl|]. split; [exact Hg|].
    assert (prepare_task (channels_after a) (updated_channels a) proc
            = Ok (Some (proc,
                        VList (match key with
                               | Some k => map (fun v => VDict [(VStr k, v)]) l
                               | None => l
                               end)))) as Hp.
    { simpl. rewrite Em. unfold getitem. rewrite Hl; simpl. rewrite Hg; simpl.
      now destruct key. }
    split; [exact Hp|]. now rewrite (Hplan _ Hp).
  - assert (prepare_task (channels_after a) (updated_channels a) proc = Ok None)
      as Hnone by (simpl; now rewrite Em).
    split; [exact Hnone|]. rewrite (Hplan _ Hnone).
    subst plan; simpl. fold a. now rewrite prepare_tasks_app.
Qed.

(** ** The read function handed to processes *)

(** C5: [read] never surfaces [EmptyChannelError]; on a registered name it
    returns the channel's current value when there is one and [None] when
    the channel is empty. *)
Theorem C5_read_hides_empty_channel (channels : registry) (chan : pystr) :
  read channels chan <> Raise EmptyChannelError
  /\ (forall c, lookup (text chan) channels = Some c ->
        (forall v, get c = Ok v -> read channels chan = Ok v)
        /\ (get c = Raise EmptyChannelError -> read channels chan = Ok VNone)).
Proof.
  unfold read, getitem. split.
  - destruct (lookup (text chan) channels) as [c|]; simpl; [|discriminate].
    unfold get. destruct (chan_get c (state c)); simpl; discriminate.
  - intros c ->; simpl. split.
    + now intros v ->.
    + now intros ->.
Qed.

(** ** The step loop *)

Lemma step_loop_bound (self : Pregel) (remaining : nat) :
  forall step channels next_tasks,
    steps (step_loop self remaining step channels next_tasks) <= remaining.
Proof.
  induction remaining as [|n IH]; intros step channels next_tasks; simpl.
  - lia.
  - destruct (run_step self step channels next_tasks) as [[[out chs] ts]|e];
      simpl; [|lia].
    destruct ts as [|t ts]; simpl; [lia|].
    specialize (IH (S step) chs (t :: ts)). lia.
Qed.

Lemma step_loop_exhausted (self : Pregel) (remaining : nat) :
  forall step channels next_tasks,
    completes_all self remaining step channels next_tasks ->
    steps (step_loop self remaining step channels next_tasks) = remaining
    /\ finish (step_loop self remaining step channels next_tasks) = Ok tt.
Proof.
  induction remaining as [|n IH]; intros step channels next_tasks H; simpl in *.
  - auto.
  - destruct (run_step self step channels next_tasks) as [[[out chs] ts]|e];
      [|contradiction].
    destruct ts as [|t ts]; [contradiction|].
    destruct (IH _ _ _ H) as [Hs Hf]. simpl. now rewrite Hs, Hf.
Qed.

(** C6: the step loop executes at most [recursion_limit] iterations, and
    when all [recursion_limit] iterations complete with a task list that
    never becomes empty, the run has executed exactly that many steps and
    ends normally, without an exception. *)
Theorem C6_recursion_limit (self : Pregel) (input : list value)
    (config : RunnableConfig) :
  (0 <= recursion_limit config)%Z ->
  let r := _transform self input config in
  (Z.of_nat (steps r) <= recursion_limit config)%Z
  /\ (forall seed next_tasks,
        seed_writes self input = Ok seed ->
        let p := _apply_writes_and_prepare_next_tasks
                   (chains self) (ChannelsManager (channels self)) seed in
        next p = Ok next_tasks ->
        completes_all self (Z.to_nat (recursion_limit config)) 0
                      (registry_after p) next_tasks ->
        Z.of_nat (steps r) = recursion_limit config /\ finish r = Ok tt).
Proof.
  intros Hlim r. subst r. unfold _transform. split.
  - destruct (seed_writes self input) as [seed|e]; [|simpl; lia].
    cbv zeta.
    match goal with
    | |- context [next ?p] => destruct (next p) as [ts|e]; [|simpl; lia]
    end.
    match goal with
    | |- context [step_loop ?s ?n ?k ?c ?t] =>
        pose proof (step_loop_bound s n k c t)
    end. lia.
  - intros seed next_tasks -> Hnext Hall. rewrite Hnext.
    destruct (step_loop_exhausted _ _ _ _ _ Hall) as [Hs Hf].
    rewrite Hs, Hf. split; [lia|reflexivity].
Qed.

(** ** The one-shot entry point *)

Lemma last_cons_default (chunks : list value) (c d d' : value) :
  last (c :: chunks) d = last (c :: chunks) d'.
Proof.
  revert c. induction chunks as [|c' chunks IH]; intros c; [reflexivity|].
  change (last (c' :: chunks) d = last (c' :: chunks) d'). apply IH.
Qed.

Lemma fold_latest (chunks : list value) :
  forall latest,
    fold_left (fun (_ : value) (chunk : value) => chunk) chunks latest =
    last chunks latest.
Proof.
  induction chunks as [|c chunks IH]; intros latest; simpl; [reflexivity|].
  rewrite IH. destruct chunks as [|c' chunks]; [reflexivity|].
  apply last_cons_default.
Qed.

(** C7: [invoke] returns the last element of what [stream] produces on the
    same input, and [None] when [stream] produces nothing. *)
Theorem C7_invoke_is_last_of_stream (self : Pregel) (input : value)
    (config : RunnableConfig) :
  invoke self input config = invoke_spec self input config
  /\ (yielded (stream self input config) = [] ->
      finish (stream self input config) = Ok tt ->
      invoke self input config = Ok VNone).
Proof.
  unfold invoke, invoke_spec. rewrite fold_latest. split.
  - now destruct (finish (stream self input config)).
  - now intros -> ->.
Qed.

(** ** A run that has nothing to do *)

Lemma prepare_task_nothing_updated (channels : registry) (proc : Process) :
  prepare_task channels [] proc = Ok None.
Proof.
  destruct proc as [subscribed run|channel key run]; [|reflexivity].
  unfold prepare_task.
  assert (existsb (fun kc : option pystr * pystr => mem (text (snd kc)) [])
                  subscribed = false) as ->; [|reflexivity].
  induction subscribed as [|kc rest IH]; simpl; [reflexivity|assumption].
Qed.

Lemma prepare_tasks_nothing_updated (channels : registry)
    (processes : list Process) :
  forall tasks, prepare_tasks channels [] processes tasks = Ok tasks.
Proof.
  induction processes as [|proc rest IH]; intros tasks; simpl; [reflexivity|].
  rewrite prepare_task_nothing_updated. apply IH.
Qed.

Lemma step_output_no_writes (self : Pregel) (channels : registry) :
  step_output self channels [] = Ok None.
Proof. unfold step_output. now destruct (output self). Qed.

Lemma interleaving_nil {A} (r : list A) : interleaving [] r -> r = [].
Proof.
  intros H. inversion H as [|before after a batch r' _ E]; [reflexivity|].
  now destruct before.
Qed.

Lemma interleaving_single {A} (batch r : list A) :
  interleaving [batch] r -> r = batch.
Proof.
  intros H. remember [batch] as batches eqn:E. revert batch E.
  induction H as [batches Hall|before after a batch' r _ IH]; intros batch E.
  - subst batches. inversion Hall as [|? ? Hb _]. now subst.
  - destruct before as [|b before]; simpl in E.
    + injection E as <- ->. f_equal. now apply IH.
    + injection E as _ E. now destruct before.
Qed.

Lemma run_step_no_tasks (self : Pregel) (step : nat) (channels : registry) :
  fair_arrival rt ->
  run_step self step channels [] = Ok (None, channels, []).
Proof.
  intros Hfair.
  unfold run_step, run_tasks, _apply_writes_and_prepare_next_tasks; simpl.
  rewrite (interleaving_nil _ (Hfair step [])); simpl.
  rewrite prepare_tasks_nothing_updated; simpl.
  now rewrite step_output_no_writes.
Qed.

Lemma step_loop_no_tasks (self : Pregel) (remaining step : nat)
    (channels : registry) :
  fair_arrival rt ->
  step_loop self remaining step channels [] =
  mkRun [] (Nat.min 1 remaining) (Ok tt).
Proof.
  intros Hfair. destruct remaining as [|n]; simpl; [reflexivity|].
  now rewrite run_step_no_tasks.
Qed.

(** When the planner returns an empty task list for the seed writes, a run
    of [_transform] yields nothing and ends normally, after one idle
    iteration at most. *)
Theorem transform_halts_without_tasks (self : Pregel) (input : list value)
    (config : RunnableConfig) (seed : list write) :
  fair_arrival rt ->
  seed_writes self input = Ok seed ->
  next (_apply_writes_and_prepare_next_tasks
          (chains self) (ChannelsManager (channels self)) seed) = Ok [] ->
  let r := _transform self input config in
  yielded r = [] /\ finish r = Ok tt /\ steps r <= 1.
Proof.
  intros Hfair Hseed Hnext r. subst r. unfold _transform.
  rewrite Hseed. cbv zeta. rewrite Hnext, step_loop_no_tasks by exact Hfair.
  simpl. split; [reflexivity|]. split; [reflexivity|].
  destruct (Z.to_nat (recursion_limit config)); lia.
Qed.

(** C9, where the code departs from it: when the planner returns an empty
    task list for the seed writes and the recursion limit allows a step, a
    run of [_atransform] hands the empty task list to [asyncio.wait] and
    ends with [ValueError] in its first iteration, while the same run of
    [_transform] yields nothing and ends normally. *)
Theorem C9_async_run_raises_without_tasks (self : Pregel) (input : list value)
    (config : RunnableConfig) (seed : list write) :
  seed_writes self input = Ok seed ->
  next (_apply_writes_and_prepare_next_tasks
          (chains self) (ChannelsManager (channels self)) seed) = Ok [] ->
  (0 < recursion_limit config)%Z ->
  _atransform self input config
    = mkRun [] 1 (Raise (ValueError "Set of Tasks/Futures is empty."))
  /\ (fair_arrival rt -> _transform self input config = mkRun [] 1 (Ok tt)).
Proof.
  intros Hseed Hnext Hlim.
  destruct (Z.to_nat (recursion_limit config)) as [|n] eqn:E; [lia|].
  split.
  - unfold _atransform. rewrite Hseed. cbv zeta. rewrite Hnext, E.
    reflexivity.
  - intros Hfair. unfold _transform. rewrite Hseed. cbv zeta.
    now rewrite Hnext, E, step_loop_no_tasks.
Qed.

(** ** The input schema *)









(** ** The output of a step, single-name form *)

Lemma step_output_single (self : Pregel) (channels : registry)
    (pending_writes : list write) (out : pystr) (c : Channel) (v : value) :
  output self = Name out ->
  lookup (text out) channels = Some c ->
  get c = Ok v ->
  step_output self channels pending_writes =
  Ok (if existsb (fun w => str_is (fst w) out) pending_writes
      then Some v else None).
Proof.
  intros Ho Hl Hg. unfold step_output, getitem. rewrite Ho, Hl; simpl.
  rewrite Hg; simpl.
  now destruct (existsb (fun w => str_is (fst w) out) pending_writes).
Qed.

(** When every name in the buffer that equals the output name is the
    output name's own object, the identity test of the step loop decides
    whether the output name was targeted. *)
Lemma identity_test_when_shared (pending_writes : list write) (out : pystr) :
  (forall w, In w pending_writes -> str_is (fst w) out = str_eq (fst w) out) ->
  existsb (fun w => str_is (fst w) out) pending_writes =
  targeted (text out) pending_writes.
Proof.
  unfold targeted. induction pending_writes as [|w pw IH]; intros H; simpl;
    [reflexivity|].
  rewrite (H w) by now left. unfold targets, str_eq at 1.
  rewrite IH; [reflexivity|]. intros w' Hw. apply H. now right.
Qed.

Lemma run_tasks_echo (channels : registry) (step : nat) (target : pystr)
    (x : value) :
  fair_arrival rt ->
  run_tasks channels step [(echo target, x)] = Ok [(target, x)].
Proof.
  intros Hfair. unfold run_tasks, echo, forward_to; simpl.
  f_equal. apply interleaving_single, Hfair.
Qed.

(** C1, at an input where the code departs from it: the process of the
    chat room sends to a name equal to the output name that is another
    object.  The step's pending writes target the output name and the
    output channel holds the value after the step, yet the step emits
    nothing and the run yields nothing; with the very same object as the
    name, the value is yielded. *)
Theorem C1_equal_name_is_not_yielded :
  fair_arrival rt ->
  let self := chat_room joined_output in
  let p0 := _apply_writes_and_prepare_next_tasks
              (chains self) (ChannelsManager (channels self))
              [(name_input, hello)] in
  let pending_writes := [(joined_output, hello)] in
  let p1 := _apply_writes_and_prepare_next_tasks
              (chains self) (registry_after p0) pending_writes in
  str_eq joined_output name_output = true
  /\ next p0 = Ok [(echo joined_output, hello)]
  /\ run_tasks (registry_after p0) 0 [(echo joined_output, hello)]
     = Ok pending_writes
  /\ targeted (text name_output) pending_writes = true
  /\ read (registry_after p1) name_output = Ok hello
  /\ step_output self (registry_after p1) pending_writes = Ok None
  /\ _transform self [hello] (mkConfig 25) = mkRun [] 1 (Ok tt)
  /\ _transform (chat_room name_output) [hello] (mkConfig 25)
     = mkRun [hello] 1 (Ok tt).
Proof.
  intros Hfair. cbv zeta.
  split; [reflexivity|]. split; [reflexivity|].
  split; [now apply run_tasks_echo|].
  split; [reflexivity|]. split; [reflexivity|]. split; [reflexivity|].
  split.
  - unfold _transform.
    change (seed_writes (chat_room joined_output) [hello])
      with (@Ok (list write) [(name_input, hello)]).
    cbv beta iota zeta.
    change (next (_apply_writes_and_prepare_next_tasks
                    (chains (chat_room joined_output))
                    (ChannelsManager (channels (chat_room joined_output)))
                    [(name_input, hello)]))
      with (Ok [(echo joined_output, hello)]).
    cbv beta iota.
    change (Z.to_nat (recursion_limit (mkConfig 25))) with 25.
    cbn [step_loop]. unfold run_step.
    rewrite (run_tasks_echo _ 0 joined_output hello Hfair).
    reflexivity.
  - unfold _transform.
    change (seed_writes (chat_room name_output) [hello])
      with (@Ok (list write) [(name_input, hello)]).
    cbv beta iota zeta.
    change (next (_apply_writes_and_prepare_next_tasks
                    (chains (chat_room name_output))
                    (ChannelsManager (channels (chat_room name_output)))
                    [(name_input, hello)]))
      with (Ok [(echo name_output, hello)]).
    cbv beta iota.
    change (Z.to_nat (recursion_limit (mkConfig 25))) with 25.
    cbn [step_loop]. unfold run_step.
    rewrite (run_tasks_echo _ 0 name_output hello Hfair).
    reflexivity.
Qed.

(** * Further properties of the planner *)

Lemma update_channel_names (channels : registry) (chan : string)
    (vals : list value) :
  map fst (update_channel channels chan vals) = map fst channels.
Proof.
  induction channels as [|[k c] rest IH]; simpl; [reflexivity|].
  destruct (String.eqb k chan); simpl; [reflexivity|now rewrite IH].
Qed.

Lemma fold_apply_names (G : list (pystr * list value)) :
  forall st,
    map fst (channels_after (fold_left apply_group G st)) =
    map fst (channels_after st).
Proof.
  induction G as [|[c vals] G IH]; intros st; simpl; [reflexivity|].
  rewrite IH. destruct (contains (channels_after st) (text c)); simpl;
    [apply update_channel_names|reflexivity].
Qed.

(** The planner rebinds no name: the registry it leaves has the names it
    was given, in the same order, whatever the pending writes are (a write
    to an unknown name creates no channel). *)
Theorem planner_keeps_registry_names (processes : list Process)
    (channels : registry) (pending_writes : list write) :
  map fst (registry_after
             (_apply_writes_and_prepare_next_tasks processes channels
                                                   pending_writes))
  = map fst channels.
Proof.
  simpl. unfold apply_writes. now rewrite fold_apply_names.
Qed.

Lemma append_write_values (c : pystr) (v : value)
    (G : list (pystr * list value)) :
  Permutation (all_values (append_write c v G)) (v :: all_values G).
Proof.
  unfold all_values.
  induction G as [|[k vals] G IH]; simpl; [apply Permutation_refl|].
  destruct (str_eq k c); simpl.
  - rewrite <- app_assoc. simpl.
    apply Permutation_sym, Permutation_middle.
  - apply Permutation_trans with (vals ++ v :: flat_map snd G).
    + apply Permutation_app_head, IH.
    + apply Permutation_sym, Permutation_middle.
Qed.

Lemma fold_append_write_values (pw : list write) :
  forall G,
    Permutation
      (all_values
         (fold_left (fun by_channel w => append_write (fst w) (snd w) by_channel)
                    pw G))
      (all_values G ++ map snd pw).
Proof.
  induction pw as [|[c v] pw IH]; intros G; simpl.
  - rewrite app_nil_r. apply Permutation_refl.
  - eapply Permutation_trans; [apply IH|].
    eapply Permutation_trans;
      [apply Permutation_app_tail, append_write_values|].
    simpl. apply Permutation_middle.
Qed.

Lemma delivered_groups (channels : registry) (G : list (pystr * list value)) :
  delivered (map (group_event channels) G) =
  all_values (filter (routed_group channels) G).
Proof.
  unfold delivered, all_values, group_event, routed_group.
  induction G as [|[c vals] G IH]; simpl; [reflexivity|].
  destruct (contains channels (text c)); simpl; now rewrite IH.
Qed.

(** Every pending write whose name is registered is handed to a channel
    exactly once, and nothing else is: the values of all [update] calls of
    a boundary are the values of the routed writes, rearranged by
    channel. *)
Theorem routed_writes_delivered_once (processes : list Process)
    (channels : registry) (pending_writes : list write) :
  Permutation
    (delivered (trace (_apply_writes_and_prepare_next_tasks
                         processes channels pending_writes)))
    (map snd (routed channels pending_writes)).
Proof.
  simpl. rewrite apply_writes_events, delivered_groups, <- group_writes_routed.
  unfold group_writes.
  apply (fold_append_write_values (routed channels pending_writes) []).
Qed.

Lemma append_inj_r (s1 s2 x : string) :
  String.length s1 = String.length s2 ->
  (s1 ++ x)%string = (s2 ++ x)%string -> s1 = s2.
Proof.
  revert s2. induction s1 as [|a s1 IH]; intros [|b s2] Hlen H; simpl in *;
    try discriminate; [reflexivity|].
  injection H as -> H. f_equal. apply IH; [lia|assumption].
Qed.

Lemma append_inj_l (p s1 s2 : string) :
  (p ++ s1)%string = (p ++ s2)%string -> s1 = s2.
Proof.
  induction p as [|a p IH]; simpl; [auto|].
  intros H. injection H as H. auto.
Qed.

Lemma append_length (s1 s2 : string) :
  String.length (s1 ++ s2)%string = String.length s1 + String.length s2.
Proof. induction s1 as [|a s1 IH]; simpl; [reflexivity|now rewrite IH]. Qed.

Lemma skip_message_inj (a b : pystr) :
  skip_message a = skip_message b -> text a = text b.
Proof.
  unfold skip_message. intros H. apply append_inj_l in H.
  apply append_inj_r in H; [assumption|].
  apply (f_equal String.length) in H. rewrite !append_length in H. lia.
Qed.

Lemma warnings_groups (channels : registry) (chan : pystr)
    (G : list (pystr * list value)) :
  NoDup (group_keys G) ->
  contains channels (text chan) = false ->
  warnings (skip_message chan) (map (group_event channels) G) =
  if existsb (String.eqb (text chan)) (group_keys G) then 1 else 0.
Proof.
  intros ND Hc. unfold warnings.
  induction G as [|[c vals] G IH]; [reflexivity|].
  inversion ND as [|? ? Hnotin ND']; subst. specialize (IH ND').
  cbn [map filter group_keys existsb fst]. fold (group_keys G).
  unfold group_event at 1. cbn [fst snd].
  destruct (String.eqb (text chan) (text c)) eqn:E.
  - apply String.eqb_eq in E. rewrite <- E, Hc.
    rewrite (skip_message_text c chan (eq_sym E)), String.eqb_refl.
    cbn [orb length]. rewrite IH.
    destruct (existsb (String.eqb (text chan)) (group_keys G)) eqn:Ex;
      [|reflexivity].
    apply existsb_eqb_In in Ex. rewrite E in Ex. contradiction.
  - cbn [orb]. destruct (contains channels (text c)); [exact IH|].
    destruct (String.eqb (skip_message c) (skip_message chan)) eqn:Em;
      [|exact IH].
    apply String.eqb_eq, skip_message_inj in Em.
    rewrite Em, String.eqb_refl in E. discriminate.
Qed.

(** However many pending writes go to one unregistered name, the planner
    emits the warning for that name exactly once. *)
Theorem one_warning_per_unrouted_name (processes : list Process)
    (channels : registry) (pending_writes : list write)
    (chan : pystr) (val : value) :
  In (chan, val) pending_writes ->
  contains channels (text chan) = false ->
  warnings (skip_message chan)
           (trace (_apply_writes_and_prepare_next_tasks
                     processes channels pending_writes)) = 1.
Proof.
  intros Hin Hc. simpl.
  rewrite apply_writes_events,
    (warnings_groups _ _ _ (group_writes_NoDup pending_writes) Hc).
  now rewrite targeted_group_keys, (In_targeted _ _ _ Hin).
Qed.

Lemma prepare_task_same_process (channels : registry) (updated : list string)
    (proc : Process) (t : task) :
  prepare_task channels updated proc = Ok (Some t) -> fst t = proc.
Proof.
  destruct proc as [subscribed run|channel key run]; simpl.
  - destruct (existsb _ subscribed); [|discriminate].
    destruct (read_subscriptions channels subscribed []) as [val|[]];
      try discriminate.
    destruct (keys_are_none subscribed).
    + destruct (dict_get_none val); simpl; [|discriminate].
      now intros [= <-].
    + now intros [= <-].
  - destruct (mem (text channel) updated); [|discriminate].
    destruct (getitem channels channel); simpl; [|discriminate].
    destruct (get a); simpl; [|discriminate].
    destruct key.
    + destruct (py_iter a0); simpl; [|discriminate]. now intros [= <-].
    + simpl. now intros [= <-].
Qed.

Lemma prepare_tasks_subsequence (channels : registry) (updated : list string)
    (processes : list Process) :
  forall tasks,
    prepare_tasks channels updated processes [] = Ok tasks ->
    subsequence (map fst tasks) processes.
Proof.
  induction processes as [|proc rest IH]; intros tasks; simpl.
  - intros [= <-]. constructor.
  - destruct (prepare_task channels updated proc) as [[t|]|e] eqn:E;
      [| |discriminate].
    + rewrite prepare_tasks_acc.
      destruct (prepare_tasks channels updated rest []) as [ts|e]; simpl;
        [|discriminate].
      intros [= <-]. simpl.
      rewrite (prepare_task_same_process _ _ _ _ E).
      apply sub_keep, IH. reflexivity.
    + intros H. apply sub_skip, IH, H.
Qed.

(** The task list follows the declaration order of the processes: the
    processes of the tasks are the declared processes with the ones that
    are not ready left out, each scheduled at most once per declaration. *)
Theorem tasks_in_declaration_order (processes : list Process)
    (channels : registry) (pending_writes : list write) (tasks : list task) :
  next (_apply_writes_and_prepare_next_tasks processes channels pending_writes)
    = Ok tasks ->
  subsequence (map fst tasks) processes.
Proof. simpl. apply prepare_tasks_subsequence. Qed.

Lemma routed_nil (channels : registry) (pw : list write) :
  (forall w, In w pw -> contains channels (text (fst w)) = false) ->
  routed channels pw = [].
Proof.
  unfold routed. induction pw as [|w pw IH]; intros H; simpl; [reflexivity|].
  rewrite (H w) by now left. apply IH. intros w' Hw. apply H. now right.
Qed.

(** A boundary at which no pending write reaches a registered channel (in
    particular one with no pending writes at all) leaves the registry as it
    was and schedules nothing, whatever the processes are. *)
Theorem nothing_routed_nothing_scheduled (processes : list Process)
    (channels : registry) (pending_writes : list write) :
  (forall w, In w pending_writes -> contains channels (text (fst w)) = false) ->
  let p := _apply_writes_and_prepare_next_tasks processes channels
                                                pending_writes in
  registry_after p = channels /\ next p = Ok [].
Proof.
  intros H. simpl.
  destruct (apply_writes_routed channels pending_writes) as [Hr Hu].
  rewrite Hr, Hu, (routed_nil _ _ H). simpl.
  split; [reflexivity|apply prepare_tasks_nothing_updated].
Qed.

(** * What a process is given, and how it is declared *)

Lemma key_eq_text (a b : option pystr) :
  key_eq a b = true <-> key_text a = key_text b.
Proof.
  destruct a as [a|], b as [b|]; simpl; unfold str_eq;
    try (split; [discriminate|discriminate]); [|tauto].
  rewrite String.eqb_eq. split; [now intros ->|now intros [= ->]].
Qed.

Lemma dict_set_fresh (k : option pystr) (v : value)
    (d : list (option pystr * value)) :
  (forall kv, In kv d -> key_text (fst kv) <> key_text k) ->
  dict_set k v d = d ++ [(k, v)].
Proof.
  induction d as [|[k' v'] d IH]; intros H; simpl; [reflexivity|].
  destruct (key_eq k' k) eqn:E.
  - apply key_eq_text in E. exfalso. apply (H (k', v')); [now left|exact E].
  - rewrite IH; [reflexivity|]. intros kv Hin. apply H. now right.
Qed.

Lemma read_subscriptions_distinct (channels : registry)
    (items : list (option pystr * pystr)) :
  forall (vs : list value) (val : list (option pystr * value)),
    NoDup (map (fun kc => key_text (fst kc)) items) ->
    (forall kv kc, In kv val -> In kc items ->
                   key_text (fst kv) <> key_text (fst kc)) ->
    Forall2 (fun kc v => current_value channels (snd kc) = Some v) items vs ->
    read_subscriptions channels items val =
    Ok (val ++ map (fun p => (fst (fst p), snd p)) (combine items vs)).
Proof.
  induction items as [|[k chan] rest IH]; intros vs val ND Hfresh Hvs;
    inversion Hvs as [|? v ? vs' Hv Hrest]; subst; simpl.
  - now rewrite app_nil_r.
  - inversion ND as [|? ? Hnotin ND']; subst.
    unfold current_value in Hv; simpl in Hv. unfold getitem, get.
    destruct (lookup (text chan) channels) as [c|]; [|discriminate]; simpl.
    rewrite Hv; simpl.
    rewrite dict_set_fresh.
    + rewrite (IH vs' _ ND'); [now rewrite <- app_assoc| |exact Hrest].
      intros kv kc Hkv Hkc. apply in_app_iff in Hkv as [Hkv|[<-|[]]].
      * apply Hfresh; [exact Hkv|now right].
      * simpl. intros E. apply Hnotin. rewrite E.
        apply (in_map (fun kc => key_text (fst kc)) _ _ Hkc).
    + intros kv Hkv. apply (Hfresh kv (k, chan) Hkv). now left.
Qed.

(** The input of a ready Invoke process whose subscribed channels all hold
    a value: the raw value of the channel for the single keyless
    subscription, and otherwise the dictionary that maps each key of the
    subscription, in order, to the current value of its channel. *)
Theorem invoke_input_shape (channels : registry) (updated : list string)
    (subscribed : list (option pystr * pystr)) (run : behaviour)
    (vs : list value) :
  NoDup (map (fun kc => key_text (fst kc)) subscribed) ->
  existsb (fun kc => mem (text (snd kc)) updated) subscribed = true ->
  Forall2 (fun kc v => current_value channels (snd kc) = Some v) subscribed vs ->
  prepare_task channels updated (PregelInvoke subscribed run) =
  Ok (Some (PregelInvoke subscribed run,
            match subscribed, vs with
            | [(None, _)], [v] => v
            | _, _ =>
                VDict (map (fun p => (key_value (fst (fst p)), snd p))
                           (combine subscribed vs))
            end)).
Proof.
  intros ND Hany Hvs. unfold prepare_task. rewrite Hany.
  rewrite (read_subscriptions_distinct channels subscribed vs [] ND);
    [|intros kv kc []|exact Hvs].
  simpl app.
  destruct (keys_are_none subscribed) eqn:K.
  - apply keys_are_none_inv in K as [chan ->].
    inversion Hvs as [|? v ? vs' _ Hrest]; subst.
    inversion Hrest; subst. reflexivity.
  - unfold as_dict. rewrite map_map; simpl.
    destruct subscribed as [|[[k|] chan] [|kc rest]];
      try discriminate K; reflexivity.
Qed.

Lemma subscription_set_keys (chan : pystr) (d : list (option pystr * pystr)) :
  map (fun kc => key_text (fst kc)) (subscription_set chan d) =
  if existsb (fun kc => key_eq (fst kc) (Some chan)) d
  then map (fun kc => key_text (fst kc)) d
  else map (fun kc => key_text (fst kc)) d ++ [Some (text chan)].
Proof.
  induction d as [|[k c] d IH]; simpl; [reflexivity|].
  destruct (key_eq k (Some chan)); simpl; [reflexivity|].
  rewrite IH. now destruct (existsb _ d).
Qed.

Lemma subscription_set_NoDup (chan : pystr) (d : list (option pystr * pystr)) :
  NoDup (map (fun kc => key_text (fst kc)) d) ->
  NoDup (map (fun kc => key_text (fst kc)) (subscription_set chan d)).
Proof.
  intros ND. rewrite subscription_set_keys.
  destruct (existsb (fun kc => key_eq (fst kc) (Some chan)) d) eqn:E;
    [assumption|].
  apply NoDup_app; [assumption|repeat constructor; simpl; tauto|].
  intros x Hin [<-|[]]. apply in_map_iff in Hin as [kc [Hk Hin]].
  assert (existsb (fun kc => key_eq (fst kc) (Some chan)) d = true);
    [|congruence].
  apply existsb_exists. exists kc. split; [assumption|].
  now apply key_eq_text.
Qed.

Lemma subscription_set_keyed (chan : pystr) (d : list (option pystr * pystr)) :
  keyed_by_name d -> keyed_by_name (subscription_set chan d).
Proof.
  unfold keyed_by_name.
  induction d as [|[k c] d IH]; intros H kc; simpl.
  - intros [<-|[]]. simpl. eauto.
  - destruct (key_eq k (Some chan)) eqn:E; simpl.
    + intros [<-|Hin]; [|apply H; now right]. simpl.
      destruct k as [k|]; [|discriminate]. exists k. split; [reflexivity|].
      simpl in E. now apply String.eqb_eq in E.
    + intros [<-|Hin]; [apply H; now left|].
      apply IH; [|exact Hin]. intros kc' Hkc'. apply H. now right.
Qed.

Lemma subscription_set_names (chan : pystr) (d : list (option pystr * pystr))
    (x : string) :
  keyed_by_name d ->
  In x (map (fun kc => text (snd kc)) (subscription_set chan d)) <->
  In x (map (fun kc => text (snd kc)) d) \/ x = text chan.
Proof.
  unfold keyed_by_name.
  induction d as [|[k c] d IH]; intros H; simpl.
  - split.
    + intros [<-|[]]. now right.
    + intros [[]|E]. subst x. now left.
  - destruct (key_eq k (Some chan)) eqn:E; simpl.
    + destruct (H (k, c) (or_introl eq_refl)) as [k' [Hk Ht]]. simpl in *.
      subst k. simpl in E. apply String.eqb_eq in E.
      assert (text c = text chan) as Hc by congruence. rewrite Hc.
      split; [tauto|]. intros [[?|?]|Ex]; [auto|auto|subst x; auto].
    + rewrite IH; [tauto|]. intros kc Hkc. apply H. now right.
Qed.

Lemma fold_subscription_set (ns : list pystr) :
  forall d,
    NoDup (map (fun kc => key_text (fst kc)) d) -> keyed_by_name d ->
    let d' := fold_left (fun d chan => subscription_set chan d) ns d in
    NoDup (map (fun kc => key_text (fst kc)) d')
    /\ keyed_by_name d'
    /\ (forall x, In x (map (fun kc => text (snd kc)) d') <->
                  In x (map (fun kc => text (snd kc)) d) \/ In x (map text ns)).
Proof.
  induction ns as [|n ns IH]; intros d ND Hk; simpl.
  - split; [exact ND|]. split; [exact Hk|]. intros x. tauto.
  - destruct (IH (subscription_set n d) (subscription_set_NoDup n d ND)
                 (subscription_set_keyed n d Hk)) as [ND' [Hk' Hin]].
    split; [exact ND'|]. split; [exact Hk'|].
    intros x. rewrite Hin, (subscription_set_names n d x Hk).
    intuition.
Qed.

(** [subscribe_to] with a sequence of names, of whatever length, never
    gives the keyless form: the process will be handed a mapping.  Its
    subscription has one entry for each distinct name, keyed by the name,
    so a name given twice is subscribed once; the empty sequence gives a
    process that is never scheduled. *)
Theorem subscribe_to_sequence (ns : list pystr) (run : behaviour) :
  let subscribed := subscription (Names ns) in
  keys_are_none subscribed = false
  /\ NoDup (map (fun kc => key_text (fst kc)) subscribed)
  /\ keyed_by_name subscribed
  /\ (forall x, In x (map (fun kc => text (snd kc)) subscribed) <->
                In x (map text ns))
  /\ (ns = [] -> forall channels updated,
        prepare_task channels updated (subscribe_to (Names ns) run) = Ok None).
Proof.
  destruct (fold_subscription_set ns []) as [ND [Hk Hin]].
  - constructor.
  - intros kc [].
  - simpl. split; [|split; [exact ND|split; [exact Hk|split]]].
    + unfold keys_are_none.
      destruct (fold_left (fun d chan => subscription_set chan d) ns [])
        as [|[k c] rest]; [reflexivity|].
      destruct (Hk (k, c) (or_introl eq_refl)) as [k' [Hk' _]].
      simpl in Hk'. now subst k.
    + intros x. rewrite (Hin x). simpl. tauto.
    + intros -> channels updated. reflexivity.
Qed.

(** * Further properties of the step loop *)

Lemma failures_In (outcomes : list outcome) (e : exn) :
  In e (failures outcomes) <-> In (Failed e) outcomes.
Proof.
  induction outcomes as [|[ws|e'|] rest IH]; simpl.
  - tauto.
  - rewrite IH. split; [auto|]. intros [H|H]; [discriminate|exact H].
  - rewrite IH. split.
    + intros [->|H]; auto.
    + intros [[= ->]|H]; auto.
  - rewrite IH. split; [auto|]. intros [H|H]; [discriminate|exact H].
Qed.

(** How a step ends when its tasks did not all finish well.  If a task has
    failed, the step raises the exception of a failed task, also when
    other tasks are still running; only when no task has failed and one is
    still running does it raise [TimeoutError] with the step number.  In
    both cases nothing is applied, planned or emitted. *)
Theorem failure_goes_before_timeout (self : Pregel) (channels : registry)
    (step : nat) (next_tasks : list task) :
  pops_a_failure rt ->
  let outcomes := map (outcome_of channels step) next_tasks in
  ((exists e, In (Failed e) outcomes) ->
     exists e', In (Failed e') outcomes
                /\ run_step self step channels next_tasks = Raise e')
  /\ ((forall e, ~ In (Failed e) outcomes) -> In Inflight outcomes ->
        run_step self step channels next_tasks = Raise (TimeoutError step)).
Proof.
  intros Hpop outcomes. unfold run_step, run_tasks.
  change (map (fun t => invoke_of (fst t) (snd t) (read channels) step)
              next_tasks) with outcomes.
  split.
  - intros [e He]. apply failures_In in He.
    destruct (failures outcomes) as [|e0 es] eqn:E; [contradiction|].
    exists (popped rt step (e0 :: es)). split; [|reflexivity].
    apply failures_In. rewrite E. apply Hpop.
  - intros Hnone Hin.
    destruct (failures outcomes) as [|e0 es] eqn:E.
    + assert (existsb is_inflight outcomes = true) as ->; [|reflexivity].
      apply existsb_exists. exists Inflight. now split.
    + exfalso. apply (Hnone e0), failures_In. rewrite E. now left.
Qed.

Lemma step_loop_yields (self : Pregel) (remaining : nat) :
  forall step channels next_tasks,
    length (yielded (step_loop self remaining step channels next_tasks))
    <= steps (step_loop self remaining step channels next_tasks).
Proof.
  induction remaining as [|n IH]; intros step channels next_tasks; simpl.
  - lia.
  - destruct (run_step self step channels next_tasks) as [[[out chs] ts]|e];
      simpl; [|lia].
    destruct ts as [|t ts]; simpl.
    + destruct out; simpl; lia.
    + specialize (IH (S step) chs (t :: ts)). destruct out; simpl; lia.
Qed.

(** A run yields at most one output per executed step, and executes at
    most as many steps as the recursion limit allows (none for a limit
    that is zero or negative). *)
Theorem at_most_one_output_per_step (self : Pregel) (input : list value)
    (config : RunnableConfig) :
  let r := _transform self input config in
  length (yielded r) <= steps r
  /\ steps r <= Z.to_nat (recursion_limit config).
Proof.
  unfold _transform.
  destruct (seed_writes self input) as [seed|e]; [|simpl; lia].
  cbv zeta.
  match goal with
  | |- context [next ?p] => destruct (next p) as [ts|e]; [|simpl; lia]
  end.
  split; [apply step_loop_yields|apply step_loop_bound].
Qed.

(** With a recursion limit that is zero or negative no step is executed:
    the seed writes are applied and the tasks are planned, but no task
    runs and nothing is yielded, and the run ends normally. *)
Theorem no_step_without_recursion_limit (self : Pregel) (input : list value)
    (config : RunnableConfig) (seed : list write) (next_tasks : list task) :
  (recursion_limit config <= 0)%Z ->
  seed_writes self input = Ok seed ->
  next (_apply_writes_and_prepare_next_tasks
          (chains self) (ChannelsManager (channels self)) seed) = Ok next_tasks ->
  _transform self input config = mkRun [] 0 (Ok tt).
Proof.
  intros Hlim Hseed Hnext. unfold _transform. rewrite Hseed. cbv zeta.
  rewrite Hnext.
  replace (Z.to_nat (recursion_limit config)) with 0 by lia. reflexivity.
Qed.

(** ** Seeding *)

Lemma chunk_writes_mapping (declared : list pystr)
    (entries : list (pystr * value)) :
  chunk_writes declared (mapping entries) =
  Ok (filter (fun kv => name_in (fst kv) declared) entries).
Proof.
  unfold chunk_writes, mapping. f_equal.
  induction entries as [|[k v] rest IH]; simpl; [reflexivity|].
  rewrite IH. now destruct (name_in k declared).
Qed.

Lemma seed_mapping_mappings (declared : list pystr)
    (dicts : list (list (pystr * value))) :
  seed_mapping declared (map mapping dicts) =
  Ok (concat (map (filter (fun kv => name_in (fst kv) declared)) dicts)).
Proof.
  induction dicts as [|d rest IH]; [reflexivity|].
  cbn [map seed_mapping concat]. rewrite chunk_writes_mapping, IH.
  reflexivity.
Qed.

Lemma seed_mapping_not_a_mapping (declared : list pystr) (chunks : list value)
    (chunk : value) :
  In chunk chunks -> (forall d, chunk <> VDict d) ->
  seed_mapping declared chunks = Raise AttributeError.
Proof.
  induction chunks as [|c rest IH]; intros Hin Hnot; [contradiction|].
  simpl. destruct c as [|z|s|l|d]; try reflexivity.
  destruct Hin as [<-|Hin]; [now destruct (Hnot d)|].
  simpl. now rewrite (IH Hin Hnot).
Qed.

(** With a sequence of names as declared input, the seed writes of input
    mappings are their entries under a declared name, each once, in the
    order of the chunks and of the entries within a chunk: an entry under
    any other key is ignored without a diagnostic.  A chunk that is not a
    mapping ends the run with [AttributeError] before any channel is
    touched. *)
Theorem seed_takes_the_declared_keys (self : Pregel) (ns : list pystr) :
  input self = Names ns ->
  (forall dicts,
      seed_writes self (map mapping dicts) =
      Ok (concat (map (filter (fun kv => name_in (fst kv) ns)) dicts)))
  /\ (forall chunks chunk,
        In chunk chunks -> (forall d, chunk <> VDict d) ->
        forall config,
          _transform self chunks config = mkRun [] 0 (Raise AttributeError)).
Proof.
  intros Hin. unfold _transform, seed_writes. rewrite Hin. split.
  - apply seed_mapping_mappings.
  - intros chunks chunk Hc Hnot config.
    now rewrite (seed_mapping_not_a_mapping ns chunks chunk Hc Hnot).
Qed.

(** ** What a step emits *)

(** With a single output name: a step whose tasks all finish and whose
    buffer holds a write under the output name's own object emits the
    value that the output channel has after the step's writes to it were
    applied, and raises [EmptyChannelError] if the channel is empty even
    then. *)
Theorem output_read_after_the_writes (self : Pregel) (step : nat)
    (channels : registry) (next_tasks : list task)
    (pending_writes : list write) (out : pystr) (c : Channel) (val : value) :
  output self = Name out ->
  lookup (text out) channels = Some c ->
  run_tasks channels step next_tasks = Ok pending_writes ->
  In (out, val) pending_writes ->
  let p := _apply_writes_and_prepare_next_tasks
             (chains self) channels pending_writes in
  run_step self step channels next_tasks
  = match next p with
    | Raise exc => Raise exc
    | Ok next_tasks' =>
        match chan_get c (chan_update c (state c)
                            (values_for (text out) pending_writes)) with
        | Some v => Ok (Some v, registry_after p, next_tasks')
        | None => Raise EmptyChannelError
        end
    end.
Proof.
  intros Ho Hl Hrun Hin p. unfold run_step. rewrite Hrun. cbn [bind].
  fold p. destruct (next p) as [next_tasks'|exc]; [|reflexivity].
  cbn [bind]. unfold step_output. rewrite Ho.
  assert (existsb (fun w => str_is (fst w) out) pending_writes = true) as ->.
  { apply existsb_exists. exists (out, val). split; [exact Hin|].
    apply Nat.eqb_refl. }
  subst p. simpl registry_after. unfold getitem.
  rewrite apply_writes_lookup, Hl, (In_targeted _ _ _ Hin); simpl.
  unfold get; simpl.
  now destruct (chan_get c (chan_update c (state c)
                              (values_for (text out) pending_writes))).
Qed.

Lemma name_in_text (c : pystr) (l : list pystr) :
  name_in c l = true <-> In (text c) (map text l).
Proof.
  unfold name_in. rewrite existsb_exists, in_map_iff. unfold str_eq.
  split; intros [x [H1 H2]].
  - exists x. apply String.eqb_eq in H2. now split.
  - exists x. split; [exact H2|]. apply String.eqb_eq. now symmetry.
Qed.

Lemma updated_outputs_names (outs : list pystr) (pw : list write) :
  forall seen x,
    In x (map text (updated_outputs outs pw seen)) <->
    In x (map text seen) \/ (targeted x pw = true /\ In x (map text outs)).
Proof.
  unfold targeted.
  induction pw as [|[c v] pw IH]; intros seen x; simpl.
  - split; [auto|]. intros [H|[H _]]; [exact H|discriminate].
  - unfold targets at 1; simpl.
    destruct (name_in c outs) eqn:Eo; simpl.
    + apply name_in_text in Eo.
      destruct (name_in c seen) eqn:Es; simpl; rewrite IH.
      * apply name_in_text in Es.
        destruct (String.eqb (text c) x) eqn:E; simpl; [|tauto].
        apply String.eqb_eq in E; subst x. tauto.
      * rewrite map_app, in_app_iff; simpl.
        destruct (String.eqb (text c) x) eqn:E; simpl.
        -- apply String.eqb_eq in E; subst x. tauto.
        -- apply String.eqb_neq in E. tauto.
    + rewrite IH.
      destruct (String.eqb (text c) x) eqn:E; simpl; [|tauto].
      apply String.eqb_eq in E; subst x.
      assert (~ In (text c) (map text outs)) as N.
      { intros H. apply name_in_text in H. congruence. }
      tauto.
Qed.

Lemma updated_outputs_NoDup (outs : list pystr) (pw : list write) :
  forall seen, NoDup (map text seen) ->
               NoDup (map text (updated_outputs outs pw seen)).
Proof.
  induction pw as [|[c v] pw IH]; intros seen ND; simpl; [exact ND|].
  destruct (name_in c outs); simpl; [|now apply IH].
  destruct (name_in c seen) eqn:Es; simpl; apply IH; [exact ND|].
  rewrite map_app. apply NoDup_app; [exact ND|repeat constructor; simpl; tauto|].
  intros x Hin [<-|[]]. apply name_in_text in Hin. congruence.
Qed.

Lemma read_outputs_readable (channels : registry) (updated : list pystr) :
  (forall s, In s updated -> current_value channels s <> None) ->
  read_outputs channels updated =
  Ok (map (fun s => (VStr s, value_of channels s)) updated).
Proof.
  induction updated as [|s rest IH]; intros H; simpl; [reflexivity|].
  assert (current_value channels s <> None) as Hs by (apply H; now left).
  unfold value_of at 1. unfold current_value in *. unfold getitem, get.
  destruct (lookup (text s) channels) as [c|]; [|contradiction]; simpl.
  destruct (chan_get c (state c)); [|contradiction]; simpl.
  rewrite IH; [reflexivity|]. intros s' Hs'. apply H. now right.
Qed.

(** With a sequence of output names whose channels all hold a value, a
    step emits nothing when no pending write targeted an output name, and
    otherwise one mapping with exactly one entry for each output name that
    some pending write targeted, bound to the current value of that
    channel; the entries come in the order in which the runtime iterates
    the set of those names. *)
Theorem outputs_of_a_step (self : Pregel) (channels : registry)
    (pending_writes : list write) (outs : list pystr) :
  iterates_the_set rt ->
  output self = Names outs ->
  (forall o, In o outs -> current_value channels o <> None) ->
  let updated := updated_outputs outs pending_writes [] in
  NoDup (map text updated)
  /\ (forall x, In x (map text updated) <->
                targeted x pending_writes = true /\ In x (map text outs))
  /\ Permutation (iteration rt updated) updated
  /\ step_output self channels pending_writes =
     Ok (match updated with
         | [] => None
         | _ :: _ =>
             Some (VDict (map (fun s => (VStr s, value_of channels s))
                              (iteration rt updated)))
         end).
Proof.
  intros Hiter Ho Hread updated.
  assert (forall x, In x (map text updated) <->
                    targeted x pending_writes = true /\ In x (map text outs))
    as Hnames.
  { intros x. subst updated. rewrite updated_outputs_names. simpl. tauto. }
  split; [apply updated_outputs_NoDup; constructor|]. split; [exact Hnames|].
  split; [apply Hiter|].
  unfold step_output. rewrite Ho. fold updated.
  assert (forall s, In s (iteration rt updated) ->
                    current_value channels s <> None) as Hu.
  { intros s Hs. apply (Permutation_in _ (Hiter updated)) in Hs.
    destruct (proj1 (Hnames (text s)) (in_map text _ _ Hs)) as [_ Hin].
    apply in_map_iff in Hin as [o [Ht Hin]].
    unfold current_value. rewrite <- Ht. apply (Hread o Hin). }
  destruct updated as [|s rest]; [reflexivity|].
  now rewrite (read_outputs_readable channels _ Hu).
Qed.

(** ** The output schema *)



Lemma input_fields_unknown (channels : registry) (before after : list string)
    (k : string) :
  (forall k', In k' before -> contains channels k' = true) ->
  contains channels k = false ->
  forall fields,
    input_fields channels (before ++ k :: after) fields = Raise (KeyError k).
Proof.
  intros Hreg Hk. unfold contains in *.
  induction before as [|b before IH]; intros fields; simpl.
  - now destruct (lookup k channels).
  - assert (match lookup b channels with Some _ => true | None => false end
            = true) as Hb by (apply Hreg; now left).
    destruct (lookup b channels); [|discriminate].
    apply IH. intros k' H. apply Hreg. now right.
Qed.

Lemma output_fields_unknown (channels : registry) (before after : list string)
    (k : string) :
  (forall k', In k' before -> contains channels k' = true) ->
  contains channels k = false ->
  forall fields,
    output_fields channels (before ++ k :: after) fields = Raise (KeyError k).
Proof.
  intros Hreg Hk. unfold contains in *.
  induction before as [|b before IH]; intros fields; simpl.
  - now destruct (lookup k channels).
  - assert (match lookup b channels with Some _ => true | None => false end
            = true) as Hb by (apply Hreg; now left).
    destruct (lookup b channels); [|discriminate].
    apply IH. intros k' H. apply Hreg. now right.
Qed.

(** Deriving a schema from a sequence that declares a name the registry
    does not know raises [KeyError] for the first such name, for the input
    schema and for the output schema alike. *)
Theorem schema_of_unknown_name (self : Pregel) (before after : list pystr)
    (n : pystr) :
  (forall b, In b before -> contains (channels self) (text b) = true) ->
  contains (channels self) (text n) = false ->
  (input self = Names (before ++ n :: after) ->
     get_input_schema self = Raise (KeyError (text n)))
  /\ (output self = Names (before ++ n :: after) ->
        get_output_schema self = Raise (KeyError (text n))).
Proof.
  intros Hreg Hn.
  assert (forall k', In k' (map text before) ->
                     contains (channels self) k' = true) as Hreg'.
  { intros k' H. apply in_map_iff in H as [b [<- H]]. now apply Hreg. }
  split; intros H.
  - unfold get_input_schema. rewrite H.
    destruct (before ++ n :: after) as [|x xs] eqn:E;
      [now destruct before|].
    rewrite <- E, map_app; simpl.
    now rewrite (input_fields_unknown _ _ _ _ Hreg' Hn).
  - unfold get_output_schema. rewrite H, map_app; simpl.
    now rewrite (output_fields_unknown _ _ _ _ Hreg' Hn).
Qed.

(** * The order of writes to different channels *)

Lemma read_subscriptions_ext (chs chs' : registry)
    (items : list (option pystr * pystr)) :
  (forall c, lookup c chs = lookup c chs') ->
  forall val, read_subscriptions chs items val = read_subscriptions chs' items val.
Proof.
  intros H. induction items as [|[k chan] rest IH]; intros val; simpl;
    [reflexivity|].
  unfold getitem. rewrite (H (text chan)).
  destruct (lookup (text chan) chs'); simpl; [|reflexivity].
  destruct (get c); simpl; [apply IH|reflexivity].
Qed.

Lemma existsb_pointwise {A} (f g : A -> bool) (l : list A) :
  (forall a, f a = g a) -> existsb f l = existsb g l.
Proof.
  intros H. induction l as [|a l IH]; simpl; [reflexivity|].
  now rewrite H, IH.
Qed.

Lemma prepare_task_ext (chs chs' : registry) (upd upd' : list string)
    (proc : Process) :
  (forall c, lookup c chs = lookup c chs') ->
  (forall k, mem k upd = mem k upd') ->
  prepare_task chs upd proc = prepare_task chs' upd' proc.
Proof.
  intros Hl Hm. destruct proc as [subscribed run|channel key run]; simpl.
  - rewrite (existsb_pointwise _ (fun kc => mem (text (snd kc)) upd')
                                subscribed)
      by (intros kc; apply Hm).
    now rewrite (read_subscriptions_ext chs chs' subscribed Hl).
  - unfold getitem. now rewrite Hm, Hl.
Qed.

Lemma prepare_tasks_ext (chs chs' : registry) (upd upd' : list string)
    (processes : list Process) :
  (forall c, lookup c chs = lookup c chs') ->
  (forall k, mem k upd = mem k upd') ->
  forall tasks,
    prepare_tasks chs upd processes tasks = prepare_tasks chs' upd' processes tasks.
Proof.
  intros Hl Hm. induction processes as [|proc rest IH]; intros tasks; simpl;
    [reflexivity|].
  rewrite (prepare_task_ext chs chs' upd upd' proc Hl Hm).
  destruct (prepare_task chs' upd' proc) as [[t|]|e]; auto.
Qed.

(** Two buffers that hold, for every channel name, the same values in the
    same order lead to the same channels and the same task list, however
    the writes to different channels are interleaved and whichever objects
    carry the names. *)
Theorem interleaving_does_not_matter (processes : list Process)
    (channels : registry) (pw pw' : list write) :
  (forall chan, values_for chan pw = values_for chan pw') ->
  let p := _apply_writes_and_prepare_next_tasks processes channels pw in
  let p' := _apply_writes_and_prepare_next_tasks processes channels pw' in
  (forall chan, lookup chan (registry_after p) = lookup chan (registry_after p'))
  /\ next p = next p'.
Proof.
  intros H. simpl.
  assert (forall chan, targeted chan pw = targeted chan pw') as Ht.
  { intros chan. now rewrite !values_for_targeted, H. }
  assert (forall chan,
            lookup chan (channels_after (apply_writes channels pw)) =
            lookup chan (channels_after (apply_writes channels pw'))) as Hl.
  { intros chan. now rewrite !apply_writes_lookup, Ht, H. }
  split; [exact Hl|].
  apply prepare_tasks_ext; [exact Hl|].
  intros k. now rewrite !apply_writes_updated, Ht.
Qed.

End Run.

(** * The theorems at work on the engines above *)

Lemma interleaving_skip {A} (batches : list (list A)) (r : list A) :
  interleaving batches r -> interleaving ([] :: batches) r.
Proof.
  induction 1 as [batches Hall|before after a batch r _ IH].
  - constructor. now constructor.
  - apply (interleaving_next ([] :: before) after a batch r IH).
Qed.

Lemma interleaving_concat {A} (batches : list (list A)) :
  interleaving batches (concat batches).
Proof.
  induction batches as [|batch rest IH]; simpl.
  - constructor. constructor.
  - induction batch as [|a batch IHb]; simpl.
    + now apply interleaving_skip.
    + apply (interleaving_next [] rest a batch _ IHb).
Qed.

Lemma task_order_fair : fair_arrival task_order.
Proof. intros step batches. apply interleaving_concat. Qed.

Lemma task_order_pops : pops_a_failure task_order.
Proof. intros step e es. now left. Qed.

Lemma task_order_iterates : iterates_the_set task_order.
Proof. intros l. apply Permutation_refl. Qed.

(** The chat room when writes arrive in task order. *)
Lemma C1_equal_name_is_not_yielded_witness :
  fair_arrival task_order
  /\ _transform task_order (chat_room joined_output) [hello] (mkConfig 25)
     = mkRun [] 1 (Ok tt)
  /\ _transform task_order (chat_room name_output) [hello] (mkConfig 25)
     = mkRun [hello] 1 (Ok tt).
Proof.
  split; [exact task_order_fair|].
  destruct (C1_equal_name_is_not_yielded task_order task_order_fair)
    as [_ [_ [_ [_ [_ [_ [H1 H2]]]]]]].
  split; [exact H1|exact H2].
Defined.

(** The echo process of the chat room is scheduled by the seed write. *)
Lemma C2_invoke_readiness_witness :
  (forall k chan, In (k, chan) [(@None pystr, name_input)] ->
                  contains chat_registry (text chan) = true)
  /\ exists input,
      next (_apply_writes_and_prepare_next_tasks
              [echo name_output] chat_registry [(name_input, hello)])
      = Ok [(echo name_output, input)].
Proof.
  assert (forall k chan, In (k, chan) [(@None pystr, name_input)] ->
                         contains chat_registry (text chan) = true) as H.
  { intros k chan [E|[]]. injection E as _ <-. reflexivity. }
  split; [exact H|].
  pose proof (C2_invoke_readiness chat_registry [(name_input, hello)]
                [(None, name_input)] (forward_to name_output) [] [] H) as W.
  simpl in W. destruct W as [input [_ W]]. exists input. exact W.
Defined.

(** A write to [ghost] next to a write to [output]. *)
Lemma C4_unrouted_write_dropped_witness :
  In (name_ghost, hello) [(name_ghost, hello); (name_output, hello)]
  /\ contains chat_registry (text name_ghost) = false
  /\ In (Warning "Skipping write for channel ghost which has no readers")
        (trace (_apply_writes_and_prepare_next_tasks
                  [] chat_registry
                  [(name_ghost, hello); (name_output, hello)]))
  /\ update_calls "output"
        (trace (_apply_writes_and_prepare_next_tasks
                  [] chat_registry
                  [(name_ghost, hello); (name_output, hello)]))
      = [[hello]].
Proof.
  assert (In (name_ghost, hello) [(name_ghost, hello); (name_output, hello)])
    as Hin by (simpl; auto).
  assert (contains chat_registry (text name_ghost) = false) as Hc
    by reflexivity.
  split; [exact Hin|]. split; [exact Hc|].
  destruct (C4_unrouted_write_dropped [] chat_registry _ _ _ Hin Hc)
    as [Hw [_ [_ [Hu _]]]].
  split; [exact Hw|]. rewrite (Hu "output"). reflexivity.
Defined.

(** Reading the chat room before and after the seed write. *)
Lemma C5_read_hides_empty_channel_witness :
  read chat_registry name_input = Ok VNone
  /\ read (update_channel chat_registry "input" [hello]) name_input = Ok hello.
Proof.
  split.
  - destruct (C5_read_hides_empty_channel chat_registry name_input) as [_ H].
    destruct (H (fresh (LastValue TyStr)) eq_refl) as [_ He].
    apply He. reflexivity.
  - destruct (C5_read_hides_empty_channel
                (update_channel chat_registry "input" [hello]) name_input)
      as [_ H].
    destruct (H (update (fresh (LastValue TyStr)) [hello]) eq_refl) as [Hv _].
    apply Hv. reflexivity.
Defined.

(** The spinner uses up a recursion limit of three and ends normally. *)
Lemma C6_recursion_limit_witness :
  (0 <= 3)%Z
  /\ Z.of_nat (steps (_transform task_order spinner [VInt 1] (mkConfig 3)))
     = 3%Z
  /\ finish (_transform task_order spinner [VInt 1] (mkConfig 3)) = Ok tt.
Proof.
  assert (0 <= recursion_limit (mkConfig 3))%Z as H by (simpl; lia).
  split; [exact H|].
  destruct (C6_recursion_limit task_order spinner [VInt 1] (mkConfig 3) H)
    as [_ W].
  apply (W [(name_input, VInt 1)]
           [(echo name_input, VInt 1); (echo name_output, VInt 1)]).
  - reflexivity.
  - reflexivity.
  - simpl. exact I.
Defined.

(** The chat room yields once; the waiting engine yields nothing. *)
Lemma C7_invoke_is_last_of_stream_witness :
  invoke task_order (chat_room name_output) hello (mkConfig 25) = Ok hello
  /\ invoke task_order waiting hello (mkConfig 25) = Ok VNone.
Proof.
  split.
  - destruct (C7_invoke_is_last_of_stream task_order (chat_room name_output)
                hello (mkConfig 25)) as [W _].
    rewrite W. reflexivity.
  - destruct (C7_invoke_is_last_of_stream task_order waiting hello
                (mkConfig 25)) as [_ W].
    apply W; reflexivity.
Defined.

(** Two writes to a topic wake the Batch process over it. *)
Lemma C8_batch_readiness_witness :
  (forall c, lookup (text name_items) items_registry = Some c ->
             sequence_after_update c)
  /\ next (_apply_writes_and_prepare_next_tasks
             [each_item] items_registry
             [(name_items, VInt 1); (name_items, VInt 2)])
     = Ok [(each_item,
            VList [VDict [(VStr name_item, VInt 1)];
                   VDict [(VStr name_item, VInt 2)]])].
Proof.
  assert (forall c, lookup (text name_items) items_registry = Some c ->
                    sequence_after_update c) as H.
  { intros c E. injection E as <-. intros vals _. simpl. eauto. }
  split; [exact H|].
  pose proof (C8_batch_readiness items_registry
                [(name_items, VInt 1); (name_items, VInt 2)]
                name_items (Some name_item) (forward_to name_output) [] [] H)
    as [_ W].
  simpl in W. destruct W as [c [l [Hl [Hg [_ W]]]]].
  injection Hl as <-. injection Hg as <-. exact W.
Defined.

(** The waiting engine has nothing to do after seeding: the run through
    [_atransform] ends with [ValueError], the one through [_transform]
    normally. *)
Lemma C9_async_run_raises_without_tasks_witness :
  seed_writes waiting [hello] = Ok [(name_input, hello)]
  /\ next (_apply_writes_and_prepare_next_tasks
             (chains waiting) (ChannelsManager (channels waiting))
             [(name_input, hello)]) = Ok []
  /\ (0 < recursion_limit (mkConfig 25))%Z
  /\ _atransform task_order waiting [hello] (mkConfig 25)
     = mkRun [] 1 (Raise (ValueError "Set of Tasks/Futures is empty."))
  /\ _transform task_order waiting [hello] (mkConfig 25) = mkRun [] 1 (Ok tt).
Proof.
  assert (0 < recursion_limit (mkConfig 25))%Z as Hlim by (simpl; lia).
  split; [reflexivity|]. split; [reflexivity|]. split; [exact Hlim|].
  destruct (C9_async_run_raises_without_tasks task_order waiting [hello]
              (mkConfig 25) [(name_input, hello)] eq_refl eq_refl Hlim)
    as [Ha Hs].
  split; [exact Ha|exact (Hs task_order_fair)].
Defined.



(** * The further properties at work *)

Lemma one_warning_per_unrouted_name_witness :
  In (name_ghost, hello)
     [(name_ghost, hello); (name_output, hello); (name_ghost, VInt 2)]
  /\ contains chat_registry (text name_ghost) = false
  /\ warnings "Skipping write for channel ghost which has no readers"
       (trace (_apply_writes_and_prepare_next_tasks [] chat_registry
                 [(name_ghost, hello); (name_output, hello);
                  (name_ghost, VInt 2)])) = 1.
Proof.
  assert (In (name_ghost, hello)
             [(name_ghost, hello); (name_output, hello); (name_ghost, VInt 2)])
    as Hin by (simpl; auto).
  split; [exact Hin|]. split; [reflexivity|].
  exact (one_warning_per_unrouted_name [] chat_registry _ _ _ Hin eq_refl).
Defined.

Lemma tasks_in_declaration_order_witness :
  next (_apply_writes_and_prepare_next_tasks
          [echo name_input; PregelInvoke [(None, name_output)] sleeping;
           echo name_output]
          chat_registry [(name_input, hello)])
  = Ok [(echo name_input, hello); (echo name_output, hello)]
  /\ subsequence [echo name_input; echo name_output]
                 [echo name_input; PregelInvoke [(None, name_output)] sleeping;
                  echo name_output].
Proof.
  split; [reflexivity|].
  exact (tasks_in_declaration_order
           [echo name_input; PregelInvoke [(None, name_output)] sleeping;
            echo name_output]
           chat_registry [(name_input, hello)]
           [(echo name_input, hello); (echo name_output, hello)] eq_refl).
Defined.

Lemma nothing_routed_nothing_scheduled_witness :
  (forall w, In w [(name_ghost, hello)] ->
             contains chat_registry (text (fst w)) = false)
  /\ next (_apply_writes_and_prepare_next_tasks
             [echo name_output] chat_registry [(name_ghost, hello)]) = Ok [].
Proof.
  assert (forall w, In w [(name_ghost, hello)] ->
                    contains chat_registry (text (fst w)) = false) as H.
  { intros w [<-|[]]. reflexivity. }
  split; [exact H|].
  exact (proj2 (nothing_routed_nothing_scheduled
                  [echo name_output] chat_registry [(name_ghost, hello)] H)).
Defined.

Lemma invoke_input_shape_witness :
  NoDup (map (fun kc : option pystr * pystr => key_text (fst kc)) both_channels)
  /\ prepare_task warm_registry ["input"]
       (PregelInvoke both_channels (forward_to name_output))
     = Ok (Some (PregelInvoke both_channels (forward_to name_output),
                 VDict [(VStr name_input, hello); (VStr name_output, hello)])).
Proof.
  assert (NoDup (map (fun kc : option pystr * pystr => key_text (fst kc))
                     both_channels)) as ND.
  { simpl. repeat constructor; simpl; intuition discriminate. }
  split; [exact ND|].
  apply (invoke_input_shape warm_registry ["input"] both_channels
           (forward_to name_output) [hello; hello] ND).
  - reflexivity.
  - repeat constructor.
Defined.

Lemma subscribe_to_sequence_witness :
  subscription (Names [name_input; name_output; name_input])
  = [(Some name_input, name_input); (Some name_output, name_output)]
  /\ prepare_task warm_registry ["input"]
       (subscribe_to (Names []) (forward_to name_output)) = Ok None.
Proof.
  split; [reflexivity|].
  destruct (subscribe_to_sequence [] (forward_to name_output))
    as [_ [_ [_ [_ H]]]].
  exact (H eq_refl warm_registry ["input"]).
Defined.

Lemma failure_goes_before_timeout_witness :
  pops_a_failure task_order
  /\ run_step task_order (chat_room name_output) 4 chat_registry
       [(PregelInvoke [(None, name_input)] sleeping, hello);
        (PregelInvoke [(None, name_input)] failing, hello)]
     = Raise (UserError "boom")
  /\ run_step task_order (chat_room name_output) 4 chat_registry
       [(PregelInvoke [(None, name_input)] sleeping, hello)]
     = Raise (TimeoutError 4).
Proof.
  split; [exact task_order_pops|]. split.
  - destruct (failure_goes_before_timeout task_order (chat_room name_output)
                chat_registry 4
                [(PregelInvoke [(None, name_input)] sleeping, hello);
                 (PregelInvoke [(None, name_input)] failing, hello)]
                task_order_pops)
      as [H _].
    destruct H as [e [Hin He]].
    + exists (UserError "boom"). simpl. auto.
    + rewrite He. destruct Hin as [Hin|[Hin|[]]]; [discriminate|].
      now injection Hin as <-.
  - destruct (failure_goes_before_timeout task_order (chat_room name_output)
                chat_registry 4
                [(PregelInvoke [(None, name_input)] sleeping, hello)]
                task_order_pops)
      as [_ H].
    apply H.
    + intros e [Hin|[]]. discriminate.
    + simpl. auto.
Defined.

Lemma no_step_without_recursion_limit_witness :
  (recursion_limit (mkConfig (-1)) <= 0)%Z
  /\ _transform task_order spinner [VInt 1] (mkConfig (-1))
     = mkRun [] 0 (Ok tt).
Proof.
  assert (recursion_limit (mkConfig (-1)) <= 0)%Z as H by (simpl; lia).
  split; [exact H|].
  exact (no_step_without_recursion_limit task_order spinner [VInt 1]
           (mkConfig (-1)) [(name_input, VInt 1)]
           [(echo name_input, VInt 1); (echo name_output, VInt 1)]
           H eq_refl eq_refl).
Defined.

Lemma seed_takes_the_declared_keys_witness :
  input record_source = Names [name_items; name_input; name_items]
  /\ seed_writes record_source
       [mapping [(name_ghost, VInt 2); (name_items, VInt 1)];
        mapping [(name_input, hello); (name_items, VInt 3)]]
     = Ok [(name_items, VInt 1); (name_input, hello); (name_items, VInt 3)]
  /\ _transform task_order record_source [VInt 1] (mkConfig 25)
     = mkRun [] 0 (Raise AttributeError).
Proof.
  split; [reflexivity|].
  destruct (seed_takes_the_declared_keys task_order record_source
              [name_items; name_input; name_items] eq_refl) as [Hs He].
  split.
  - exact (Hs [[(name_ghost, VInt 2); (name_items, VInt 1)];
               [(name_input, hello); (name_items, VInt 3)]]).
  - apply (He [VInt 1] (VInt 1)); [now left|discriminate].
Defined.

Lemma output_read_after_the_writes_witness :
  output (chat_room name_output) = Name name_output
  /\ lookup (text name_output) warm_registry
     = Some (update (fresh (LastValue TyStr)) [hello])
  /\ run_tasks task_order warm_registry 1
       [(echo name_output, VInt 1); (echo name_output, VInt 2)]
     = Ok [(name_output, VInt 1); (name_output, VInt 2)]
  /\ In (name_output, VInt 1) [(name_output, VInt 1); (name_output, VInt 2)]
  /\ run_step task_order (chat_room name_output) 1 warm_registry
       [(echo name_output, VInt 1); (echo name_output, VInt 2)]
     = Ok (Some (VInt 2),
           update_channel warm_registry "output" [VInt 1; VInt 2], []).
Proof.
  assert (In (name_output, VInt 1)
             [(name_output, VInt 1); (name_output, VInt 2)])
    as Hin by (simpl; auto).
  split; [reflexivity|]. split; [reflexivity|]. split; [reflexivity|].
  split; [exact Hin|].
  exact (output_read_after_the_writes task_order (chat_room name_output) 1
           warm_registry
           [(echo name_output, VInt 1); (echo name_output, VInt 2)]
           [(name_output, VInt 1); (name_output, VInt 2)]
           name_output (update (fresh (LastValue TyStr)) [hello]) (VInt 1)
           eq_refl eq_refl eq_refl Hin).
Defined.

Lemma outputs_of_a_step_witness :
  iterates_the_set task_order
  /\ output record_sink = Names [name_input; name_output]
  /\ (forall o, In o [name_input; name_output] ->
                current_value warm_registry o <> None)
  /\ step_output task_order record_sink warm_registry
       [(joined_output, VInt 1); (joined_output, VInt 2)]
     = Ok (Some (VDict [(VStr joined_output, hello)])).
Proof.
  assert (forall o, In o [name_input; name_output] ->
                    current_value warm_registry o <> None) as H.
  { intros o [<-|[<-|[]]]; vm_compute; discriminate. }
  split; [exact task_order_iterates|]. split; [reflexivity|].
  split; [exact H|].
  exact (proj2 (proj2 (proj2
           (outputs_of_a_step task_order record_sink warm_registry
              [(joined_output, VInt 1); (joined_output, VInt 2)]
              [name_input; name_output] task_order_iterates eq_refl H)))).
Defined.


Lemma schema_of_unknown_name_witness :
  contains (channels misdeclared) (text name_ghost) = false
  /\ get_input_schema pydantic_v1 misdeclared = Raise (KeyError "ghost")
  /\ get_output_schema pydantic_v1 misdeclared = Raise (KeyError "ghost").
Proof.
  split; [reflexivity|].
  destruct (schema_of_unknown_name pydantic_v1 misdeclared [name_input] []
              name_ghost)
    as [Hi Ho].
  - intros b [<-|[]]. reflexivity.
  - reflexivity.
  - split; [exact (Hi eq_refl)|exact (Ho eq_refl)].
Defined.

Lemma transform_halts_without_tasks_witness :
  fair_arrival task_order
  /\ seed_writes waiting [hello] = Ok [(name_input, hello)]
  /\ yielded (_transform task_order waiting [hello] (mkConfig 25)) = []
  /\ finish (_transform task_order waiting [hello] (mkConfig 25)) = Ok tt.
Proof.
  split; [exact task_order_fair|]. split; [reflexivity|].
  destruct (transform_halts_without_tasks task_order waiting [hello]
              (mkConfig 25) [(name_input, hello)]
              task_order_fair eq_refl eq_refl) as [Hy [Hf _]].
  split; assumption.
Defined.

Lemma interleaving_does_not_matter_witness :
  (forall chan,
      values_for chan [(name_input, VInt 1); (name_output, VInt 2);
                       (name_input, VInt 3)]
      = values_for chan [(name_output, VInt 2); (name_input, VInt 1);
                         (name_input, VInt 3)])
  /\ next (_apply_writes_and_prepare_next_tasks
             [echo name_output] chat_registry
             [(name_input, VInt 1); (name_output, VInt 2); (name_input, VInt 3)])
     = next (_apply_writes_and_prepare_next_tasks
               [echo name_output] chat_registry
               [(name_output, VInt 2); (name_input, VInt 1);
                (name_input, VInt 3)]).
Proof.
  assert (forall chan,
             values_for chan [(name_input, VInt 1); (name_output, VInt 2);
                              (name_input, VInt 3)]
             = values_for chan [(name_output, VInt 2); (name_input, VInt 1);
                                (name_input, VInt 3)]) as H.
  { intros chan. unfold values_for, targets. cbn -[String.eqb].
    destruct (String.eqb "input" chan) eqn:Ei;
      destruct (String.eqb "output" chan) eqn:Eo; try reflexivity.
    apply String.eqb_eq in Ei. subst chan. discriminate Eo. }
  split; [exact H|].
  exact (proj2 (interleaving_does_not_matter [echo name_output] chat_registry
                  _ _ H)).
Defined.
